(** * UMBA headline harvester: a shallow embedding of [umba_harvest.py]

    The harvester reads a list of outlet URLs, fetches each outlet, extracts
    headline records from the response (feed first, HTML heuristics as a
    fallback) and appends the records that are not yet in the master CSV.

    Conventions of the embedding.
    - A Python [str] is a [string], its characters the code points below
      256; the code inspects only comma, double quote, CR, LF, the hash sign,
      the two scheme prefixes and white space.  The log is read and written
      as UTF-8 text with [newline=""], so that no character is translated
      on the way: the file is modelled by its text.
    - A file is an [option string]: [None] when the path does not exist.
    - A headline record is the 4-tuple [(date, domain, title, link)].
    - Python sets of lines are [gset string].
    - Library calls (requests, feedparser, BeautifulSoup's parser, urllib,
      datetime) are the fields of an environment; the network and the
      clock are a world threaded through a state and exception monad. *)

From Stdlib Require Import Ascii String DecimalString.
From stdpp Require Import base gmap sets list strings.

(** ** Text primitives *)

Module Text.

Definition LF : ascii := "010"%char.
Definition CR : ascii := "013"%char.
Definition DQUOTE : ascii := "034"%char.
Definition COMMA : ascii := ","%char.

Definition CRLF : string := String CR (String LF "").

(** [c in s] for a character. *)
Fixpoint contains_char (c : ascii) (s : string) : bool :=
  match s with
  | "" => false
  | String a s' => if decide (a = c) then true else contains_char c s'
  end.

(** [sep.join(parts)] *)
Fixpoint join (sep : string) (parts : list string) : string :=
  match parts with
  | [] => ""
  | [p] => p
  | p :: ps => p +:+ sep +:+ join sep ps
  end.

(** [s.replace(q, q + q)] for the double quote character [q]. *)
Fixpoint double_quotes (s : string) : string :=
  match s with
  | "" => ""
  | String a s' =>
      if decide (a = DQUOTE)
      then String DQUOTE (String DQUOTE (double_quotes s'))
      else String a (double_quotes s')
  end.

(** [s.rstrip("\n")]: every trailing line feed is removed. *)
Fixpoint rstrip_nl (s : string) : string :=
  match s with
  | "" => ""
  | String a s' =>
      match rstrip_nl s' with
      | "" => if decide (a = LF) then "" else String a ""
      | r => String a r
      end
  end.

(** Iterating over a text file opened with [newline=""]: a line ends at
    LF, at CR LF or at a lone CR, and keeps its terminator; the last line
    may have none.  [cur] is the line read so far, reversed. *)
Fixpoint readlines_go (cur : string) (s : string) : list string :=
  match s with
  | "" => match cur with "" => [] | _ => [String.rev cur] end
  | String a s' =>
      if decide (a = LF) then String.rev (String a cur) :: readlines_go "" s'
      else if decide (a = CR) then
        match s' with
        | String b s'' =>
            if decide (b = LF)
            then String.rev (String b (String a cur)) :: readlines_go "" s''
            else String.rev (String a cur) :: readlines_go "" s'
        | "" => [String.rev (String a cur)]
        end
      else readlines_go (String a cur) s'
  end.

Definition readlines (s : string) : list string := readlines_go "" s.

(** No CR and no LF in the string. *)
Fixpoint no_line_break (s : string) : bool :=
  match s with
  | "" => true
  | String a s' =>
      negb (bool_decide (a = CR)) && negb (bool_decide (a = LF)) && no_line_break s'
  end.

(** A text whose last line, if any, ends with a line feed. *)
Definition complete_lines (s : string) : Prop :=
  s = "" \/ exists body, s = body +:+ String LF "".

End Text.

(** ** The CSV log *)

Module Csv.
Import Text.

(** A headline record, as the extractors build it. *)
Definition Entry : Type := string * string * string * string.

(** *** [csv.writer], excel dialect

    Quoting is minimal: a field is wrapped in double quotes exactly when
    it holds the delimiter, the quote character or a character of the
    line terminator; quote characters inside are doubled.  A row ends
    with CR LF. *)

Definition special (c : ascii) : bool :=
  bool_decide (c = COMMA) || bool_decide (c = DQUOTE)
  || bool_decide (c = CR) || bool_decide (c = LF).

Fixpoint needs_quoting (s : string) : bool :=
  match s with
  | "" => false
  | String a s' => special a || needs_quoting s'
  end.

Definition quoted (s : string) : string :=
  String DQUOTE (double_quotes s +:+ String DQUOTE "").

Definition csv_field (s : string) : string :=
  if needs_quoting s then quoted s else s.

(** A row made of one empty field is written as a pair of quotes. *)
Definition csv_record (row : list string) : string :=
  match row with
  | [""] => String DQUOTE (String DQUOTE "")
  | _ => join "," (csv_field <$> row)
  end.

Definition writerow (row : list string) : string :=
  csv_record row +:+ CRLF.

(** The row of a record and the text of a log made of rows. *)
Definition row_of (e : Entry) : list string :=
  let '(date, domain, title, link) := e in [date; domain; title; link].

Definition write_rows (rows : list (list string)) : string :=
  foldr (fun row text => writerow row +:+ text) "" rows.

Definition entry_title (e : Entry) : string := e.1.2.
Definition entry_link (e : Entry) : string := e.2.

(** *** Deduplication key *)

Definition canonical_line (e : Entry) : string :=
  let '(date, domain, title, link) := e in
  join "," [date; domain; quoted title; String DQUOTE (link +:+ String DQUOTE "")].

(** *** [load_existing_lines] *)

Definition load_existing_lines (file : option string) : gset string :=
  match file with
  | None => ∅
  | Some text =>
      foldl (fun existing line => existing ∪ {[ rstrip_nl line ]})
            ∅ (readlines text)
  end.

(** *** [append_entries_to_csv]

    The file is opened in append mode, which creates it when it is
    missing; every [writerow] puts its text at the end of the file.  The
    loop state is the text of the file, the set of known lines and the
    counter.  (Creating the parent directory has no effect on the log.) *)

Record AppendState := mkAppend {
  log : string;
  existing_lines : gset string;
  new_count : nat
}.

Definition file_text (file : option string) : string :=
  default "" file.

Definition append_step (st : AppendState) (e : Entry) : AppendState :=
  let '(date, domain, title, link) := e in
  let row := [date; domain; title; link] in
  let line := canonical_line e in
  if decide (line ∈ existing_lines st) then st
  else {| log := log st +:+ writerow row;
          existing_lines := existing_lines st ∪ {[ line ]};
          new_count := S (new_count st) |}.

Definition append_loop (st : AppendState) (entries : list Entry) : AppendState :=
  foldl append_step st entries.

Definition append_entries_to_csv (file : option string) (entries : list Entry)
  : option string * nat :=
  let st0 := {| log := file_text file;
                existing_lines := load_existing_lines file;
                new_count := 0 |} in
  let st := append_loop st0 entries in
  (Some (log st), new_count st).

End Csv.

(** ** Reading the log back: [csv.reader], excel dialect

    The log is read back with [csv.reader(open(path, newline=""))]: the file
    object hands out lines (terminators kept), the reader feeds their
    characters to a state machine and signals the end of each line.  The
    excel dialect has no escape character, so the three escape states of
    the machine cannot be entered and are left out; the limit on the size
    of a field is not modelled. *)

Module CsvReader.
Import Text.

Inductive ParserState :=
| START_RECORD | START_FIELD | IN_FIELD
| IN_QUOTED_FIELD | QUOTE_IN_QUOTED_FIELD | EAT_CRNL.

Global Instance ParserState_eq_dec : EqDecision ParserState.
Proof. solve_decision. Defined.

Record Reader := mkReader {
  records : list (list string);   (* rows returned so far *)
  fields : list string;           (* fields of the current row *)
  field : string;                 (* characters of the current field *)
  state : ParserState
}.

Definition set_state (s : ParserState) (r : Reader) : Reader :=
  {| records := records r; fields := fields r; field := field r; state := s |}.

Definition parse_add_char (c : ascii) (r : Reader) : Reader :=
  {| records := records r; fields := fields r;
     field := field r +:+ String c ""; state := state r |}.

Definition parse_save_field (r : Reader) : Reader :=
  {| records := records r; fields := fields r ++ [field r];
     field := ""; state := state r |}.

Definition is_newline (c : ascii) : bool :=
  bool_decide (c = LF) || bool_decide (c = CR).

(** The end of a field for a character [c] that is a line break or the
    end of the line ([None]). *)
Definition end_of_field (c : option ascii) (r : Reader) : Reader :=
  set_state (match c with None => START_RECORD | Some _ => EAT_CRNL end)
            (parse_save_field r).

Definition line_break (c : option ascii) : bool :=
  match c with None => true | Some a => is_newline a end.

Definition start_field (c : option ascii) (r : Reader) : option Reader :=
  if line_break c then Some (end_of_field c r)
  else match c with
       | None => None
       | Some a =>
           if decide (a = DQUOTE) then Some (set_state IN_QUOTED_FIELD r)
           else if decide (a = COMMA)
                then Some (set_state START_FIELD (parse_save_field r))
                else Some (set_state IN_FIELD (parse_add_char a r))
       end.

(** [parse_process_char]; [None] as a character is the end of a line,
    [None] as a result is [csv.Error]. *)
Definition parse_process_char (r : Reader) (c : option ascii) : option Reader :=
  match state r with
  | START_RECORD =>
      match c with
      | None => Some r
      | Some a =>
          if is_newline a then Some (set_state EAT_CRNL r)
          else start_field c r
      end
  | START_FIELD => start_field c r
  | IN_FIELD =>
      if line_break c then Some (end_of_field c r)
      else match c with
           | None => None
           | Some a =>
               if decide (a = COMMA)
               then Some (set_state START_FIELD (parse_save_field r))
               else Some (parse_add_char a r)
           end
  | IN_QUOTED_FIELD =>
      match c with
      | None => Some r
      | Some a =>
          if decide (a = DQUOTE) then Some (set_state QUOTE_IN_QUOTED_FIELD r)
          else Some (parse_add_char a r)
      end
  | QUOTE_IN_QUOTED_FIELD =>
      match c with
      | Some a =>
          if decide (a = DQUOTE)
          then Some (set_state IN_QUOTED_FIELD (parse_add_char a r))
          else if decide (a = COMMA)
          then Some (set_state START_FIELD (parse_save_field r))
          else if is_newline a then Some (end_of_field c r)
          else Some (set_state IN_FIELD (parse_add_char a r))
      | None => Some (end_of_field c r)
      end
  | EAT_CRNL =>
      match c with
      | None => Some (set_state START_RECORD r)
      | Some a => if is_newline a then Some r else None
      end
  end.

(** The characters of one line. *)
Fixpoint feed (r : Reader) (line : string) : option Reader :=
  match line with
  | "" => Some r
  | String a line' => parse_process_char r (Some a) ≫= fun r' => feed r' line'
  end.

(** A row is returned when the machine is back at the start of a record
    after the end of a line; the next row starts from a reset parser. *)
Definition emit (r : Reader) : Reader :=
  if decide (state r = START_RECORD)
  then {| records := records r ++ [fields r]; fields := [];
          field := ""; state := START_RECORD |}
  else r.

Definition end_of_line (r : Reader) : option Reader :=
  emit <$> parse_process_char r None.

Definition feed_line (r : Reader) (line : string) : option Reader :=
  feed r line ≫= end_of_line.

Fixpoint feed_lines (r : Reader) (lines : list string) : option Reader :=
  match lines with
  | [] => Some r
  | l :: ls => feed_line r l ≫= fun r' => feed_lines r' ls
  end.

(** At the end of the input an unfinished row is returned when it has
    an open quoted field or characters of a field; otherwise the
    iteration just stops. *)
Definition end_of_input (r : Reader) : list (list string) :=
  if bool_decide (field r ≠ "") || bool_decide (state r = IN_QUOTED_FIELD)
  then records r ++ [fields r ++ [field r]]
  else records r.

Definition reader_init : Reader :=
  {| records := []; fields := []; field := ""; state := START_RECORD |}.

(** [list(csv.reader(f))] for the file text. *)
Definition csv_reader (text : string) : option (list (list string)) :=
  end_of_input <$> feed_lines reader_init (readlines text).

(** The states in which a field may begin, and the reader between two
    rows. *)
Definition at_start (st : ParserState) : Prop :=
  st = START_RECORD \/ st = START_FIELD.

Definition fresh (rs : list (list string)) : Reader :=
  mkReader rs [] "" START_RECORD.

(** The same reading in one pass over the text: the end of a line is
    signalled after LF and after a CR that no LF follows, and once more at
    the end of a text whose last line has no terminator.  [pending] tells
    whether the current line has characters. *)
Definition starts_with_LF (s : string) : bool :=
  match s with
  | String b _ => bool_decide (b = LF)
  | "" => false
  end.

Definition ends_line (a : ascii) (rest : string) : bool :=
  bool_decide (a = LF) || bool_decide (a = CR) && negb (starts_with_LF rest).

Fixpoint run (pending : bool) (r : Reader) (s : string) : option Reader :=
  match s with
  | "" => if pending then end_of_line r else Some r
  | String a s' =>
      parse_process_char r (Some a) ≫= fun r1 =>
        if ends_line a s' then end_of_line r1 ≫= fun r2 => run false r2 s'
        else run true r1 s'
  end.

End CsvReader.

(** ** Harvesting *)

Module Harvest.
Import Text Csv.

Definition MAX_ITEMS_PER_SOURCE : nat := 50.

(** *** White space and the outlet list *)

(** [str.isspace] on a character of the model (a code point below 256). *)
Definition is_space (c : ascii) : bool :=
  let n := nat_of_ascii c in
  (9 <=? n) && (n <=? 13) || (28 <=? n) && (n <=? 32)
  || (n =? 133) || (n =? 160).

Fixpoint lstrip (s : string) : string :=
  match s with
  | "" => ""
  | String a s' => if is_space a then lstrip s' else s
  end.

Fixpoint rstrip (s : string) : string :=
  match s with
  | "" => ""
  | String a s' =>
      match rstrip s' with
      | "" => if is_space a then "" else String a ""
      | r => String a r
      end
  end.

Definition strip (s : string) : string := rstrip (lstrip s).

Definition startswith (s p : string) : bool := String.prefix p s.

(** A text file opened with the default [newline]: lines end where they
    end under [newline=""], and the terminator is handed out as LF. *)
Fixpoint translate_newline (line : string) : string :=
  match line with
  | "" => ""
  | String a line' =>
      if decide (a = CR) then String LF "" else String a (translate_newline line')
  end.

Definition text_lines (text : string) : list string :=
  translate_newline <$> readlines text.

Definition read_outlet_step (urls : list string) (line : string) : list string :=
  let line := strip line in
  if bool_decide (line = "") || startswith line "#" then urls
  else if startswith line "http://" || startswith line "https://"
       then urls ++ [line]
       else urls.

(** What the outlet reader is meant to return, in the words of its
    description: the stripped lines that are no comment and start with
    one of the two schemes, in file order. *)
Definition is_comment (line : string) : bool := startswith line "#".

Definition has_http_scheme (line : string) : bool :=
  startswith line "http://" || startswith line "https://".

Definition outlet_urls_spec (text : string) : list string :=
  List.filter has_http_scheme
    (List.filter (fun line => negb (is_comment line)) (strip <$> text_lines text)).

(** *** Exceptions, the outside world and the monad of the program *)

Inductive Exn :=
| OSError (msg : string)             (* opening or reading a file *)
| RequestException (msg : string)    (* connection errors and timeouts *)
| HTTPError (msg : string)           (* [raise_for_status] *)
| ValueError (msg : string).         (* [urljoin] on a malformed address *)

Definition exn_str (e : Exn) : string :=
  match e with
  | OSError m | RequestException m | HTTPError m | ValueError m => m
  end.

(** The exceptions of the network: those of [requests]. *)
Definition is_fetch_error (e : Exn) : bool :=
  match e with
  | RequestException _ | HTTPError _ => true
  | OSError _ | ValueError _ => false
  end.

Record Response := mkResponse {
  status_code : nat;
  reason : string;
  resp_url : string;
  content : string;
  text : string
}.

(** An entry of a parsed feed: what [entry.get] and [getattr] find. *)
Record FeedEntry {TimeStruct : Type} := mkFeedEntry {
  e_title : option string;
  e_link : option string;
  published_parsed : option TimeStruct;
  updated_parsed : option TimeStruct;
  created_parsed : option TimeStruct
}.
Global Arguments FeedEntry : clear implicits.

(** A parsed HTML document. *)
#[warnings="-register-all"]
Inductive Node :=
| NavigableString (s : string)
| Comment (s : string)
| Tag (name : string) (attrs : gmap string string) (children : list Node).

(** What [BeautifulSoup] offers on a parsed document: the descendants
    of a tag in document order, [find_all(name)], [find("a", href=True)],
    [get_text(strip=True)] and the value of an attribute. *)
Fixpoint descendants (n : Node) : list Node :=
  match n with
  | Tag _ _ children => flat_map (fun c => c :: descendants c) children
  | _ => []
  end.

Definition soup_descendants (soup : list Node) : list Node :=
  flat_map (fun c => c :: descendants c) soup.

Definition has_name (name : string) (n : Node) : bool :=
  match n with
  | Tag name' _ _ => bool_decide (name' = name)
  | _ => false
  end.

Definition get_attr (key : string) (n : Node) : option string :=
  match n with
  | Tag _ attrs _ => attrs !! key
  | _ => None
  end.

Definition find_all (soup : list Node) (name : string) : list Node :=
  List.filter (has_name name) (soup_descendants soup).

Definition find_a_href (tag : Node) : option Node :=
  List.find (fun n => has_name "a" n && bool_decide (is_Some (get_attr "href" n)))
            (descendants tag).

Definition stripped_strings (n : Node) : list string :=
  flat_map (fun d => match d with
                     | NavigableString s =>
                         let s := strip s in
                         if bool_decide (s = "") then [] else [s]
                     | _ => []
                     end)
           (descendants n).

Definition get_text_strip (n : Node) : string :=
  join "" (stripped_strings n).

(** The libraries and the environment the program runs in.  The network
    and the clock belong to a world that every access may change. *)
Class Env := {
  World : Type;
  TimeStruct : Type;
  OUTLETS_FILE : string;
  (* [urlparse(url).netloc], [None] when [urlparse] raises *)
  urlparse_netloc : string -> option string;
  (* [urljoin(base, url)], [inl msg] when it raises [ValueError(msg)], as
     it does on an href such as //[ *)
  urljoin : string -> string -> string + string;
  (* [feedparser.parse(content).entries] *)
  feedparser_entries : string -> list (FeedEntry TimeStruct);
  (* [BeautifulSoup(text, "html.parser")]: the children of the document *)
  html_parser : string -> list Node;
  (* [dt.datetime( *value[:6] ).date().isoformat()], [None] when it raises *)
  struct_isoformat : TimeStruct -> option string;
  (* [requests.get] with the user agent and the timeout *)
  requests_get : string -> World -> (Exn + Response) * World;
  (* [dt.date.today().isoformat()] *)
  date_today : World -> string * World
}.

Section Program.
Context `{E : Env}.

Record St := mkSt {
  world : World;
  stdout : list string;
  stderr : list string
}.

Definition M (A : Type) : Type := St -> (Exn + A) * St.

Definition ret {A} (a : A) : M A := fun st => (inr a, st).

Definition bind {A B} (m : M A) (k : A -> M B) : M B :=
  fun st => match m st with
            | (inr a, st') => k a st'
            | (inl e, st') => (inl e, st')
            end.

Definition raise {A} (e : Exn) : M A := fun st => (inl e, st).

(** [try: body except Exception as e: handler e] *)
Definition try_except {A} (body : M A) (handler : Exn -> M A) : M A :=
  fun st => match body st with
            | (inr a, st') => (inr a, st')
            | (inl e, st') => handler e st'
            end.

Definition print (line : string) : M unit :=
  fun st => (inr tt, {| world := world st; stdout := stdout st ++ [line];
                        stderr := stderr st |}).

Definition print_err (line : string) : M unit :=
  fun st => (inr tt, {| world := world st; stdout := stdout st;
                        stderr := stderr st ++ [line] |}).

Definition with_world {A} (f : World -> A * World) : M A :=
  fun st => let '(a, w) := f (world st) in
            (inr a, {| world := w; stdout := stdout st; stderr := stderr st |}).

End Program.

Global Instance M_ret `{E : Env} : MRet M := @ret E.
Global Instance M_bind `{E : Env} : MBind M := fun A B k m => bind m k.

(** A [for] loop whose body has effects, threading the loop variable. *)
Fixpoint for_each `{E : Env} {A S : Type} (body : S -> A -> M S) (acc : S)
    (items : list A) : M S :=
  match items with
  | [] => ret acc
  | x :: xs => acc' ← body acc x; for_each body acc' xs
  end.

(** The decimal digits of a number, as an f-string prints it. *)
Definition str_of_nat (n : nat) : string :=
  DecimalString.NilZero.string_of_uint (Nat.to_uint n).

Section Functions.
Context `{E : Env}.

Definition today_iso : M string := with_world date_today.

Definition domain_from_url (url : string) : string :=
  match urlparse_netloc url with
  | Some netloc => netloc
  | None => ""
  end.

(** [read_outlet_urls]: a missing file makes [open] raise. *)
Definition read_outlet_urls (file : option string) : M (list string) :=
  match file with
  | None => raise (OSError OUTLETS_FILE)
  | Some text => ret (foldl read_outlet_step [] (text_lines text))
  end.

Definition raise_for_status (resp : Response) : M unit :=
  let code := status_code resp in
  if (400 <=? code) && (code <? 500)
  then raise (HTTPError (str_of_nat code +:+ " Client Error: " +:+ reason resp
                         +:+ " for url: " +:+ resp_url resp))
  else if (500 <=? code) && (code <? 600)
  then raise (HTTPError (str_of_nat code +:+ " Server Error: " +:+ reason resp
                         +:+ " for url: " +:+ resp_url resp))
  else ret tt.

Definition requests_get_m (url : string) : M Response :=
  fun st => let '(r, w) := requests_get url (world st) in
            (r, {| world := w; stdout := stdout st; stderr := stderr st |}).

(** The body of the [try] block of [fetch_url], and the function. *)
Definition fetch_body (url : string) : M (option Response) :=
  resp ← requests_get_m url;
  raise_for_status resp;;
  mret (Some resp).

Definition fetch_warning (url : string) (e : Exn) : string :=
  "[WARN] Failed to fetch " +:+ url +:+ ": " +:+ exn_str e.

Definition fetch_url (url : string) : M (option Response) :=
  try_except (fetch_body url)
             (fun e => print_err (fetch_warning url e);; mret None).

(** *** RSS / Atom *)

(** The first of the three parsed dates that is present and converts;
    the date of the day otherwise. *)
Fixpoint first_date (values : list (option TimeStruct)) (pub_date : string)
  : string :=
  match values with
  | [] => pub_date
  | None :: values' => first_date values' pub_date
  | Some value :: values' =>
      match struct_isoformat value with
      | Some iso => iso
      | None => first_date values' pub_date
      end
  end.

Definition rss_step (source_domain : string) (entries : list Entry)
    (entry : FeedEntry TimeStruct) : M (list Entry) :=
  let title := strip (default "" (e_title entry)) in
  let link := strip (default "" (e_link entry)) in
  if bool_decide (title = "") || bool_decide (link = "") then mret entries
  else
    today ← today_iso;
    let pub_date :=
      first_date [published_parsed entry; updated_parsed entry;
                  created_parsed entry] today in
    mret (entries ++ [(pub_date, source_domain, title, link)]).

Definition harvest_rss (url : string) (resp : Response) : M (list Entry) :=
  let parsed := feedparser_entries (content resp) in
  match parsed with
  | [] => mret []
  | _ =>
      let source_domain := domain_from_url url in
      for_each (rss_step source_domain) [] (take MAX_ITEMS_PER_SOURCE parsed)
  end.

(** *** Generic HTML scraping *)

Definition candidate_step (candidates : list (string * string)) (tag : Node)
  : list (string * string) :=
  match find_a_href tag with
  | None => candidates
  | Some a =>
      let title := get_text_strip a in
      let href := default "" (get_attr "href" a) in
      if bool_decide (title ≠ "") && bool_decide (href ≠ "")
      then candidates ++ [(title, href)]
      else candidates
  end.

Definition article_candidates (soup : list Node) : list (string * string) :=
  foldl candidate_step [] (find_all soup "article").

Definition headline_candidates (soup : list Node) : list (string * string) :=
  foldl (fun candidates tag_name =>
           foldl candidate_step candidates (find_all soup tag_name))
        [] ["h1"; "h2"; "h3"].

Definition html_candidates (soup : list Node) : list (string * string) :=
  match article_candidates soup with
  | [] => headline_candidates soup
  | candidates => candidates
  end.

(** One turn of the last loop: [urljoin] is called on every candidate,
    before the test for a repeat, and outside any [try]; [inl msg] when it
    raises. *)
Definition normalize_step (url today source_domain : string)
    (acc : gset (string * string) * list Entry) (candidate : string * string)
  : string + gset (string * string) * list Entry :=
  let '(seen, entries) := acc in
  let '(title, href) := candidate in
  match urljoin url href with
  | inl msg => inl msg
  | inr link =>
      let key := (title, link) in
      inr (if decide (key ∈ seen) then (seen, entries)
           else (seen ∪ {[ key ]},
                 entries ++ [(today, source_domain, title, link)]))
  end.

(** The loop ends at the first candidate on which [urljoin] raises. *)
Fixpoint normalize_loop (url today source_domain : string)
    (acc : gset (string * string) * list Entry)
    (candidates : list (string * string))
  : string + gset (string * string) * list Entry :=
  match candidates with
  | [] => inr acc
  | candidate :: candidates' =>
      match normalize_step url today source_domain acc candidate with
      | inl msg => inl msg
      | inr acc' => normalize_loop url today source_domain acc' candidates'
      end
  end.

Definition normalize_and_limit (url today source_domain : string)
    (candidates : list (string * string)) : string + list Entry :=
  match normalize_loop url today source_domain (∅, [])
          (take MAX_ITEMS_PER_SOURCE candidates) with
  | inl msg => inl msg
  | inr (_, entries) => inr entries
  end.

(** [harvest_html]: the [ValueError] of [urljoin] leaves the function,
    and the records gathered so far are lost with it. *)
Definition harvest_html (url : string) (resp : Response) : M (list Entry) :=
  today ← today_iso;
  let source_domain := domain_from_url url in
  let soup := html_parser (text resp) in
  match normalize_and_limit url today source_domain (html_candidates soup) with
  | inl msg => raise (ValueError msg)
  | inr entries => mret entries
  end.

(** *** Core harvest logic *)

(** The two lines [harvest_one_url] prints. *)
Definition rss_info (url : string) (entries : list Entry) : string :=
  "[INFO] " +:+ url +:+ " -> RSS/Atom: "
  +:+ str_of_nat (length entries) +:+ " entries".

Definition html_info (url : string) (entries : list Entry) : string :=
  "[INFO] " +:+ url +:+ " -> HTML fallback: "
  +:+ str_of_nat (length entries) +:+ " entries".

Definition harvest_one_url (url : string) (dry_run : bool) : M (list Entry) :=
  resp ← fetch_url url;
  match resp with
  | None => mret []
  | Some resp =>
      rss_entries ← harvest_rss url resp;
      match rss_entries with
      | _ :: _ =>
          print (rss_info url rss_entries);;
          mret rss_entries
      | [] =>
          html_entries ← harvest_html url resp;
          print (html_info url html_entries);;
          mret html_entries
      end
  end.

Definition outlet_step (dry_run : bool) (all_entries : list Entry) (url : string)
  : M (list Entry) :=
  entries ← harvest_one_url url dry_run;
  mret (all_entries ++ entries).

Definition harvest_all_outlets (outlets : option string) (dry_run : bool)
  : M (list Entry) :=
  print ("[INFO] Using outlets file: " +:+ OUTLETS_FILE);;
  urls ← read_outlet_urls outlets;
  match urls with
  | [] =>
      print_err "[ERROR] No URLs found in outlets file.";;
      mret []
  | _ => for_each (outlet_step dry_run) [] urls
  end.

End Functions.

(** *** Vocabulary of the properties *)

Section Vocabulary.
Context `{E : Env}.

(** What a record of the feed path looks like: the domain of the
    outlet, and the stripped title and link of a feed entry, both
    non-empty; the link is not resolved against anything. *)
Definition from_feed (source_domain : string)
    (parsed : list (FeedEntry TimeStruct)) (e : Entry) : Prop :=
  exists entry, entry ∈ parsed
    /\ e.1.1.2 = source_domain
    /\ e.1.2 = strip (default "" (e_title entry))
    /\ e.2 = strip (default "" (e_link entry))
    /\ e.1.2 ≠ "" /\ e.2 ≠ "".

Definition nonempty_pair (c : string * string) : Prop :=
  c.1 ≠ "" /\ c.2 ≠ "".

(** What a record of the HTML path looks like: the date of the day, the
    domain of the outlet, the title of a candidate and its href
    resolved against the URL of the outlet. *)
Definition from_page (url today source_domain : string)
    (candidates : list (string * string)) (e : Entry) : Prop :=
  exists title href link, (title, href) ∈ candidates
    /\ urljoin url href = inr link
    /\ e = (today, source_domain, title, link).

(** [urljoin] resolves the href of the candidate against the URL. *)
Definition resolves (url : string) (candidate : string * string) : bool :=
  match urljoin url candidate.2 with
  | inr _ => true
  | inl _ => false
  end.

(** The state after a line was printed to the error or to the
    standard output. *)
Definition log_warning (line : string) (st : St) : St :=
  {| world := world st; stdout := stdout st; stderr := stderr st ++ [line] |}.

Definition log_info (line : string) (st : St) : St :=
  {| world := world st; stdout := stdout st ++ [line]; stderr := stderr st |}.

End Vocabulary.

End Harvest.

(** ** Sample data *)

Module Samples.
Import Text Csv.

Definition plain_entry : Entry :=
  ("2024-01-01", "example.com", "Title", "https://example.com/a").

Definition plain_row : string :=
  "2024-01-01,example.com,Title,https://example.com/a" +:+ CRLF.

(** A header line that was written without a line end. *)
Definition header_line : string := "date,domain,title,link".

(** A title that holds two double quotes. *)
Definition quoted_title : string :=
  "He said " +:+ String DQUOTE ("hi" +:+ String DQUOTE "").

(** *** A sample environment

    A small web, with the behaviour of the libraries on its documents: a
    feed whose only item has a relative link, a page with one article, a
    page whose only link has an href that [urljoin] rejects, and an
    address that cannot be reached.  The world counts the accesses to the
    network. *)
Import Harvest.

Definition feed_url : string := "https://example.com/feed".
Definition page_url : string := "https://example.com/news".
Definition broken_url : string := "https://example.com/broken".
Definition down_url : string := "https://down.example/feed".

(** An address without scheme and host, as a caller of [harvest_html]
    can pass it. *)
Definition bare_url : string := "?".

Definition feed_xml : string :=
  "<rss><channel><item><title>Story</title><link>/story</link></item></channel></rss>".

Definition page_html : string :=
  "<article><a href=/a>First</a></article><h2><a href=/b>Second</a></h2>".

(** A page whose only link has the href //[, and one whose only link
    is the fragment #. *)
Definition broken_html : string :=
  "<article><a href='//['>Broken</a></article>".

Definition anchor_html : string :=
  "<article><a href='#'>Top</a></article>".

(** A page with the same article twice and another one after it. *)
Definition twice_html : string :=
  "<article><a href='/a'>First</a></article><article><a href='/a'>First</a></article><article><a href='/c'>Third</a></article>".

Definition feed_response : Response :=
  {| status_code := 200; reason := "OK"; resp_url := feed_url;
     content := feed_xml; text := feed_xml |}.

Definition page_response : Response :=
  {| status_code := 200; reason := "OK"; resp_url := page_url;
     content := page_html; text := page_html |}.

Definition broken_response : Response :=
  {| status_code := 200; reason := "OK"; resp_url := broken_url;
     content := broken_html; text := broken_html |}.

Definition anchor_response : Response :=
  {| status_code := 200; reason := "OK"; resp_url := bare_url;
     content := anchor_html; text := anchor_html |}.

Definition page_soup : list Node :=
  [Tag "article" ∅ [Tag "a" {[ "href" := "/a" ]} [NavigableString "First"]];
   Tag "h2" ∅ [Tag "a" {[ "href" := "/b" ]} [NavigableString "Second"]]].

Definition twice_response : Response :=
  {| status_code := 200; reason := "OK"; resp_url := page_url;
     content := twice_html; text := twice_html |}.

Definition twice_soup : list Node :=
  [Tag "article" ∅ [Tag "a" {[ "href" := "/a" ]} [NavigableString "First"]];
   Tag "article" ∅ [Tag "a" {[ "href" := "/a" ]} [NavigableString "First"]];
   Tag "article" ∅ [Tag "a" {[ "href" := "/c" ]} [NavigableString "Third"]]].

Definition broken_soup : list Node :=
  [Tag "article" ∅ [Tag "a" {[ "href" := "//[" ]} [NavigableString "Broken"]]].

Definition anchor_soup : list Node :=
  [Tag "article" ∅ [Tag "a" {[ "href" := "#" ]} [NavigableString "Top"]]].

Fixpoint until_slash (s : string) : string :=
  match s with
  | "" => ""
  | String a s' => if decide (a = "/"%char) then "" else String a (until_slash s')
  end.

Definition scheme_of (url : string) : string :=
  if startswith url "https://" then "https://"
  else if startswith url "http://" then "http://" else "".

(** The host of an address; an address without scheme has none. *)
Definition netloc_of (url : string) : string :=
  if bool_decide (scheme_of url = "") then ""
  else until_slash (String.substring (String.length (scheme_of url))
                                     (String.length url) url).

(** Resolution of the hrefs of the sample web, as [urljoin] does it: the
    href //[ is rejected (an IPv6 host that is not closed); an href with a
    scheme stands for itself; the fragment # against the address ? gives
    the empty string; any other href is taken from the root of the
    site. *)
Definition sample_urljoin (base href : string) : string + string :=
  if bool_decide (href = "//[") then inl "Invalid IPv6 URL"
  else if bool_decide (scheme_of href ≠ "") then inr href
  else if bool_decide (base = bare_url) && bool_decide (href = "#") then inr ""
  else inr (scheme_of base +:+ netloc_of base
            +:+ (if startswith href "/" then href else "/" +:+ href)).

Global Instance sample_env : Env := {|
  World := nat;
  TimeStruct := string;
  OUTLETS_FILE := "outlets_rss.txt";
  urlparse_netloc := fun url => Some (netloc_of url);
  urljoin := sample_urljoin;
  feedparser_entries := fun content =>
    if bool_decide (content = feed_xml)
    then [ {| e_title := Some "Story"; e_link := Some "/story";
              published_parsed := None; updated_parsed := None;
              created_parsed := None |} ]
    else [];
  html_parser := fun text =>
    if bool_decide (text = page_html) then page_soup
    else if bool_decide (text = broken_html) then broken_soup
    else if bool_decide (text = twice_html) then twice_soup
    else if bool_decide (text = anchor_html) then anchor_soup
    else [];
  struct_isoformat := fun value =>
    if bool_decide (value = "") then None else Some value;
  requests_get := fun url w =>
    if bool_decide (url = feed_url) then (inr feed_response, S w)
    else if bool_decide (url = page_url) then (inr page_response, S w)
    else if bool_decide (url = broken_url) then (inr broken_response, S w)
    else (inl (RequestException "connection refused"), S w);
  date_today := fun w => ("2024-01-02", w)
|}.

(** The state at the start of a run and after one access to the
    network; the record of the sample feed. *)
Definition st0 : St := {| world := 0; stdout := []; stderr := [] |}.
Definition st_fetched : St := {| world := 1; stdout := []; stderr := [] |}.

(** The state after the sample feed was harvested and the fetch of the
    unreachable address failed. *)
Definition st_failed : St :=
  {| world := 2;
     stdout := ["[INFO] https://example.com/feed -> RSS/Atom: 1 entries"];
     stderr := [] |}.

Definition story_entry : Entry :=
  ("2024-01-02", "example.com", "Story", "/story").

Definition first_entry : Entry :=
  ("2024-01-02", "example.com", "First", "https://example.com/a").

End Samples.

(** ** The command line: [main] *)

Module Cli.
Import Text Csv Harvest.

(** The parsed arguments: [--test-url] (absent, or its value) and
    [--dry-run]. *)
Record Args := mkArgs {
  test_url : option string;
  dry_run : bool
}.

(** [if args.test_url:] holds for a value that is not the empty string. *)
Definition test_url_given (args : Args) : option string :=
  match test_url args with
  | Some url => if bool_decide (url = "") then None else Some url
  | None => None
  end.

Definition entry_line (e : Entry) : string :=
  let '(date, domain, title, link) := e in
  "- [" +:+ date +:+ "] " +:+ domain +:+ " :: " +:+ title +:+ " -> " +:+ link.

Section Main.
Context `{E : Env}.
Variable MASTER_CSV : string.

Definition print_step (_ : unit) (line : string) : M unit := print line.

(** Case 1: one URL, shown on the standard output. *)
Definition test_mode (url : string) : M nat :=
  print ("[INFO] TEST-URL mode for: " +:+ url);;
  entries ← harvest_one_url url true;
  print "";;
  print ("[INFO] Found " +:+ str_of_nat (length entries) +:+ " entries.");;
  for_each print_step tt (entry_line <$> take 10 entries);;
  (if 10 <? length entries
   then print ("... " +:+ str_of_nat (length entries - 10) +:+ " more not shown")
   else mret tt);;
  mret 0.

(** Case 2: all outlets, counts only. *)
Definition dry_mode (outlets : option string) : M nat :=
  print "[INFO] DRY-RUN mode: no CSV writes.";;
  entries ← harvest_all_outlets outlets true;
  print ("[INFO] Total entries (all outlets): " +:+ str_of_nat (length entries));;
  mret 0.

(** Case 3, up to the harvest, and its last line. *)
Definition normal_harvest (outlets : option string) : M (list Entry) :=
  print ("[INFO] OUTLETS file: " +:+ OUTLETS_FILE);;
  print ("[INFO] Writing master CSV: " +:+ MASTER_CSV);;
  harvest_all_outlets outlets false.

Definition done_line (added : nat) : string :=
  "[INFO] Done. Added " +:+ str_of_nat added +:+ " new headlines.".

(** [main]: the outcome (the exit status, or the exception that leaves
    the program), the state of the program and the master CSV afterwards.
    [outlets] and [csv] are the two files at the start. *)
Definition main (args : Args) (outlets csv : option string) (st : St)
  : (Exn + nat) * St * option string :=
  match test_url_given args with
  | Some url => (test_mode url st, csv)
  | None =>
      if dry_run args then (dry_mode outlets st, csv)
      else
        match normal_harvest outlets st with
        | (inl e, st') => (inl e, st', csv)
        | (inr entries, st') =>
            let '(csv', added) := append_entries_to_csv csv entries in
            ((print (done_line added);; mret 0) st', csv')
        end
  end.

(** The number of lines printed so far, on both outputs. *)
Definition printed (st : St) : nat := length (stdout st) + length (stderr st).

End Main.

End Cli.

(** ** Vocabulary of further properties *)

Module Vocabulary.
Import Text Csv Harvest.

(** No comma in the string. *)
Fixpoint comma_free (s : string) : bool :=
  match s with
  | "" => true
  | String a s' => negb (bool_decide (a = COMMA)) && comma_free s'
  end.

(** No comma in the date and in the domain of a record. *)
Definition comma_free_entry (e : Entry) : bool :=
  comma_free e.1.1.1 && comma_free e.1.1.2.

(** A log whose lines are the comparison lines of records, each ended by a
    line feed. *)
Definition canonical_log (entries : list Entry) : string :=
  foldr (fun e text => canonical_line e +:+ String LF text) "" entries.

Definition entry_no_line_break (e : Entry) : bool :=
  let '(date, domain, title, link) := e in
  no_line_break date && no_line_break domain
  && no_line_break title && no_line_break link.

Definition row_no_line_break (row : list string) : bool :=
  forallb no_line_break row.

(** The candidate a tag of the page gives: the text and the href of its
    first link with an href, when both are non-empty. *)
Definition candidate_of (tag : Node) : option (string * string) :=
  match find_a_href tag with
  | None => None
  | Some a =>
      let title := get_text_strip a in
      let href := default "" (get_attr "href" a) in
      if bool_decide (title ≠ "") && bool_decide (href ≠ "")
      then Some (title, href) else None
  end.

(** The first of the dates that is present and converts. *)
Definition first_converted `{E : Env} (values : list (option TimeStruct))
  : option string :=
  head (omap (fun value => value ≫= struct_isoformat) values).

(** What identifies a record within one page. *)
Definition entry_key (e : Entry) : string * string := (entry_title e, entry_link e).

(** The title and link a feed entry contributes, if it has both. *)
Definition feed_pair {T : Type} (entry : FeedEntry T) : option (string * string) :=
  let title := strip (default "" (e_title entry)) in
  let link := strip (default "" (e_link entry)) in
  if bool_decide (title = "") || bool_decide (link = "") then None
  else Some (title, link).

(** A response that [raise_for_status] lets through. *)
Definition status_ok (resp : Response) : bool :=
  negb ((400 <=? status_code resp) && (status_code resp <? 600)).

(** The state with another world. *)
Definition set_world `{E : Env} (w : World) (st : St) : St :=
  {| world := w; stdout := stdout st; stderr := stderr st |}.

(** The state after several lines were printed to the standard output. *)
Definition log_infos `{E : Env} (lines : list string) (st : St) : St :=
  {| world := world st; stdout := stdout st ++ lines; stderr := stderr st |}.

(** The key of a candidate once its href is resolved, if it can be. *)
Definition resolved_key `{E : Env} (url : string) (c : string * string)
  : option (string * string) :=
  match urljoin url c.2 with
  | inr link => Some (c.1, link)
  | inl _ => None
  end.

End Vocabulary.

(** ** Sample runs of the command line *)

Module CliSamples.
Import Text Csv Harvest Cli Samples.

Definition master_path : string := "raw/headlines_master.csv".

Definition test_args : Args := {| test_url := Some feed_url; dry_run := false |}.
Definition dry_args : Args := {| test_url := None; dry_run := true |}.
Definition normal_args : Args := {| test_url := Some ""; dry_run := false |}.

(** An outlet file with a comment, an indented URL and other lines; one
    without any URL; and one whose second outlet is the page with the
    href that [urljoin] rejects. *)
Definition outlets_text : string :=
  "# outlets" +:+ String LF ("  https://example.com/feed " +:+ CRLF
  +:+ "ftp://example.com/x" +:+ String LF "https://down.example/feed").

Definition outlets_without_urls : string :=
  "# nothing yet" +:+ String LF ("example.com/feed" +:+ String LF "").

Definition outlets_with_broken : string :=
  "https://example.com/feed" +:+ String LF
    ("https://example.com/broken" +:+ String LF
       ("https://example.com/news" +:+ String LF "")).

Definition broken_args : Args :=
  {| test_url := Some broken_url; dry_run := false |}.

End CliSamples.

(** * Properties *)

(** ** Strings *)

Module TextFacts.
Import Text.

Lemma app_nil_l (s : string) : "" +:+ s = s.
Proof. reflexivity. Qed.

Lemma app_cons (a : ascii) (s t : string) :
  String a s +:+ t = String a (s +:+ t).
Proof. reflexivity. Qed.

Lemma app_nil_r (s : string) : s +:+ "" = s.
Proof. induction s as [|a s IH]; [done|]. by rewrite app_cons, IH. Qed.

Lemma app_assoc (s t u : string) : (s +:+ t) +:+ u = s +:+ t +:+ u.
Proof. induction s as [|a s IH]; [done|]. by rewrite !app_cons, IH. Qed.

Lemma app_snoc (s t : string) (a : ascii) :
  (s +:+ String a "") +:+ t = s +:+ String a t.
Proof. by rewrite app_assoc. Qed.

Lemma rev_app_spec (s t : string) : String.rev_app s t = String.rev s +:+ t.
Proof.
  unfold String.rev. revert t.
  induction s as [|a s IH]; intros t; simpl; [done|].
  rewrite (IH (String a t)), (IH (String a "")). by rewrite app_snoc.
Qed.

Lemma rev_cons (a : ascii) (s : string) :
  String.rev (String a s) = String.rev s +:+ String a "".
Proof. unfold String.rev at 1. simpl. apply rev_app_spec. Qed.

Lemma app_eq_nil (s t : string) : s +:+ t = "" -> s = "" /\ t = "".
Proof. destruct s; [done|]. by rewrite app_cons. Qed.

Lemma readlines_go_cons (cur : string) (a : ascii) (s : string) :
  readlines_go cur (String a s)
  = if decide (a = LF) then String.rev (String a cur) :: readlines_go "" s
    else if decide (a = CR) then
      match s with
      | String b s' =>
          if decide (b = LF)
          then String.rev (String b (String a cur)) :: readlines_go "" s'
          else String.rev (String a cur) :: readlines_go "" s
      | "" => [String.rev (String a cur)]
      end
    else readlines_go (String a cur) s.
Proof. reflexivity. Qed.

(** Text that ends with a line feed splits into lines on its own: what
    follows it starts a new line. *)
Lemma readlines_go_app_lf (n : nat) :
  forall s : string, String.length s <= n ->
  forall (cur t : string),
    readlines_go cur (s +:+ String LF t)
    = readlines_go cur (s +:+ String LF "") ++ readlines t.
Proof.
  assert (Hnil : forall cur t,
    readlines_go cur ("" +:+ String LF t)
    = readlines_go cur ("" +:+ String LF "") ++ readlines t).
  { intros cur t. rewrite !app_nil_l, !readlines_go_cons.
    by rewrite !decide_True by done. }
  induction n as [|n IH]; intros s Hlen cur t.
  { destruct s; [apply Hnil|simpl in Hlen; lia]. }
  destruct s as [|a s]; [apply Hnil|]. simpl in Hlen.
  rewrite !app_cons, !readlines_go_cons.
  destruct (decide (a = LF)); [cbn [app]; f_equal; apply IH; lia|].
  destruct (decide (a = CR)); [|apply IH; lia].
  destruct s as [|b s].
  - rewrite !app_nil_l. by rewrite !decide_True by done.
  - rewrite !app_cons. simpl in Hlen.
    destruct (decide (b = LF)); cbn [app]; f_equal.
    + apply IH. lia.
    + rewrite <- !app_cons. apply IH. simpl. lia.
Qed.

Lemma readlines_app (old new : string) :
  complete_lines old -> readlines (old +:+ new) = readlines old ++ readlines new.
Proof.
  intros [-> | [body ->]]; [done|].
  rewrite app_assoc, app_cons, app_nil_l. unfold readlines at 1 2.
  apply (readlines_go_app_lf (String.length body)). done.
Qed.

Lemma contains_dquote_needs_quoting (s : string) :
  contains_char DQUOTE s = true -> Csv.needs_quoting s = true.
Proof.
  induction s as [|a s IH]; [done|]. simpl.
  destruct (decide (a = DQUOTE)) as [->|]; [done|].
  intros H. rewrite (IH H). apply orb_true_r.
Qed.

Lemma app_snoc_inj (s t : string) (a b : ascii) :
  s +:+ String a "" = t +:+ String b "" -> a = b.
Proof.
  revert t. induction s as [|c s IH]; intros [|d t] H.
  - by inversion H.
  - rewrite app_nil_l, app_cons in H. inversion H as [[Hc Ht]]. by destruct t.
  - rewrite app_nil_l, app_cons in H. inversion H as [[Hc Hs]]. by destruct s.
  - rewrite !app_cons in H. inversion H. eauto.
Qed.

Lemma no_line_break_app (s t : string) :
  no_line_break (s +:+ t) = no_line_break s && no_line_break t.
Proof.
  induction s as [|a s IH]; [done|].
  rewrite app_cons. simpl. rewrite IH. by rewrite andb_assoc.
Qed.

Lemma no_line_break_double_quotes (s : string) :
  no_line_break (double_quotes s) = no_line_break s.
Proof.
  induction s as [|a s IH]; [done|]. simpl.
  destruct (decide (a = DQUOTE)) as [->|]; simpl; by rewrite IH.
Qed.

(** A text without line breaks followed by CR LF is one line, and the
    line keeps its CR when the line feed is stripped. *)
Lemma readlines_go_one_line (s : string) :
  no_line_break s = true ->
  forall cur, readlines_go cur (s +:+ CRLF) = [String.rev cur +:+ s +:+ CRLF].
Proof.
  induction s as [|a s IH]; intros Hs cur.
  - rewrite app_nil_l. unfold CRLF. rewrite readlines_go_cons.
    rewrite decide_False, !decide_True by done.
    by rewrite !rev_cons, !app_assoc.
  - simpl in Hs. apply andb_true_iff in Hs as [Ha Hs].
    apply andb_true_iff in Ha as [Hcr Hlf].
    apply negb_true_iff, bool_decide_eq_false in Hcr, Hlf.
    rewrite app_cons, readlines_go_cons, !decide_False by done.
    rewrite IH by done. by rewrite rev_cons, app_snoc.
Qed.

Lemma rstrip_nl_crlf (s : string) :
  rstrip_nl (s +:+ CRLF) = s +:+ String CR "".
Proof.
  induction s as [|a s IH]; [done|].
  rewrite !app_cons. simpl. rewrite IH. by destruct s.
Qed.

End TextFacts.

(** ** The reader, in one pass *)

Module CsvReaderFacts.
Import Text TextFacts CsvReader.

Lemma feed_app (r : Reader) (s t : string) :
  feed r (s +:+ t) = feed r s ≫= fun r' => feed r' t.
Proof.
  revert r. induction s as [|a s IH]; intros r; [done|].
  rewrite app_cons. simpl. destruct (parse_process_char r (Some a)); simpl; auto.
Qed.

Lemma feed_snoc (r : Reader) (s : string) (a : ascii) :
  feed r (s +:+ String a "") = feed r s ≫= fun r' => parse_process_char r' (Some a).
Proof.
  rewrite feed_app. destruct (feed r s) as [r'|]; simpl; [|done].
  by destruct (parse_process_char r' (Some a)).
Qed.

Lemma run_cons (pending : bool) (r : Reader) (a : ascii) (s : string) :
  run pending r (String a s)
  = parse_process_char r (Some a) ≫= fun r1 =>
      if ends_line a s then end_of_line r1 ≫= fun r2 => run false r2 s
      else run true r1 s.
Proof. reflexivity. Qed.

Lemma feed_line_snoc (r : Reader) (s : string) (a : ascii) :
  feed_line r (String.rev (String a s))
  = feed r (String.rev s) ≫= fun r0 =>
      parse_process_char r0 (Some a) ≫= end_of_line.
Proof.
  unfold feed_line. rewrite rev_cons, feed_snoc.
  by destruct (feed r (String.rev s)).
Qed.

Lemma feed_lines_cons (r : Reader) (l : string) (ls : list string) :
  feed_lines r (l :: ls) = feed_line r l ≫= fun r' => feed_lines r' ls.
Proof. reflexivity. Qed.

Lemma feed_lines_readlines_go (n : nat) :
  forall (s : string), String.length s <= n ->
  forall (cur : string) (r : Reader),
    feed_lines r (readlines_go cur s)
    = feed r (String.rev cur) ≫= fun r' => run (bool_decide (cur ≠ "")) r' s.
Proof.
  assert (Hnil : forall cur r,
    feed_lines r (readlines_go cur "")
    = feed r (String.rev cur) ≫= fun r' => run (bool_decide (cur ≠ "")) r' "").
  { intros [|c cur] r; [done|]. simpl. unfold feed_line.
    destruct (feed r _) as [r'|]; simpl; [|done]. by destruct (end_of_line r'). }
  induction n as [|n IH]; intros s Hlen cur r.
  { destruct s; [apply Hnil|simpl in Hlen; lia]. }
  destruct s as [|a s]; [apply Hnil|].
  simpl in Hlen. rewrite readlines_go_cons.
  destruct (decide (a = LF)) as [->|Hlf].
  - rewrite feed_lines_cons, feed_line_snoc.
    destruct (feed r (String.rev cur)) as [r0|]; cbn [mbind option_bind]; [|done].
    rewrite run_cons.
    destruct (parse_process_char r0 (Some LF)) as [r1|]; cbn [mbind option_bind]; [|done].
    destruct (end_of_line r1) as [r2|]; cbn [mbind option_bind]; [|done].
    by rewrite IH by lia.
  - destruct (decide (a = CR)) as [->|Hcr].
    + destruct s as [|b s].
      { rewrite feed_lines_cons, feed_line_snoc.
        destruct (feed r (String.rev cur)) as [r0|]; cbn [mbind option_bind]; [|done].
        rewrite run_cons.
        destruct (parse_process_char r0 (Some CR)) as [r1|]; cbn [mbind option_bind]; [|done].
        by destruct (end_of_line r1). }
      destruct (decide (b = LF)) as [->|Hb].
      * rewrite feed_lines_cons, feed_line_snoc, rev_cons, feed_snoc.
        destruct (feed r (String.rev cur)) as [r0|]; cbn [mbind option_bind]; [|done].
        rewrite run_cons.
        destruct (parse_process_char r0 (Some CR)) as [r1|]; cbn [mbind option_bind]; [|done].
        change (ends_line CR (String LF s)) with false. cbv iota. rewrite run_cons.
        destruct (parse_process_char r1 (Some LF)) as [r2|]; cbn [mbind option_bind]; [|done].
        destruct (end_of_line r2) as [r3|]; cbn [mbind option_bind]; [|done].
        simpl in Hlen. by rewrite IH by lia.
      * rewrite feed_lines_cons, feed_line_snoc.
        destruct (feed r (String.rev cur)) as [r0|]; cbn [mbind option_bind]; [|done].
        rewrite run_cons.
        destruct (parse_process_char r0 (Some CR)) as [r1|]; cbn [mbind option_bind]; [|done].
        unfold ends_line, starts_with_LF.
        rewrite (bool_decide_eq_false_2 _ Hb). cbn [negb andb orb bool_decide decide_rel].
        change (bool_decide (CR = LF)) with false.
        change (bool_decide (CR = CR)) with true. cbv iota. cbn [negb andb orb].
        destruct (end_of_line r1) as [r2|]; cbn [mbind option_bind]; [|done].
        by rewrite IH by lia.
    + rewrite IH by lia. rewrite rev_cons, feed_snoc.
      destruct (feed r (String.rev cur)) as [r0|]; cbn [mbind option_bind]; [|done].
      rewrite run_cons.
      destruct (parse_process_char r0 (Some a)) as [r1|]; cbn [mbind option_bind]; [|done].
      unfold ends_line.
      rewrite (bool_decide_eq_false_2 (a = LF)), (bool_decide_eq_false_2 (a = CR)) by done.
      by rewrite (bool_decide_eq_true_2 (String a cur ≠ "")) by done.
Qed.

Lemma feed_lines_readlines (r : Reader) (s : string) :
  feed_lines r (readlines s) = run false r s.
Proof.
  unfold readlines. by rewrite (feed_lines_readlines_go (String.length s)).
Qed.

(** *** Reading back what [csv.writer] wrote *)

Import Csv.

Lemma special_false (a : ascii) :
  special a = false -> a ≠ COMMA /\ a ≠ DQUOTE /\ a ≠ CR /\ a ≠ LF.
Proof.
  unfold special. intros H.
  repeat (apply orb_false_iff in H as [H ?]).
  repeat split; by apply (bool_decide_eq_false_1 _).
Qed.

Lemma ends_line_plain (a : ascii) (s : string) :
  a ≠ CR -> a ≠ LF -> ends_line a s = false.
Proof.
  intros Hcr Hlf. unfold ends_line.
  by rewrite (bool_decide_eq_false_2 _ Hcr), (bool_decide_eq_false_2 _ Hlf).
Qed.

Lemma is_newline_plain (a : ascii) : a ≠ CR -> a ≠ LF -> is_newline a = false.
Proof.
  intros Hcr Hlf. unfold is_newline.
  by rewrite (bool_decide_eq_false_2 _ Hcr), (bool_decide_eq_false_2 _ Hlf).
Qed.

(** Characters of a field written without quotes. *)
Lemma run_in_field (t : string) :
  needs_quoting t = false ->
  forall pend rs fs f c rest,
    run pend (mkReader rs fs f IN_FIELD) (t +:+ String c rest)
    = run true (mkReader rs fs (f +:+ t) IN_FIELD) (String c rest).
Proof.
  induction t as [|a t IH]; intros Hq pend rs fs f c rest.
  - by rewrite app_nil_l, app_nil_r.
  - simpl in Hq. apply orb_false_iff in Hq as [Ha Hq].
    apply special_false in Ha as (Hcomma & Hdq & Hcr & Hlf).
    rewrite app_cons, run_cons, ends_line_plain by done.
    unfold parse_process_char, line_break. cbn [state].
    rewrite is_newline_plain by done.
    rewrite decide_False by done. cbn [mbind option_bind].
    unfold parse_add_char. cbn [records fields field state].
    rewrite IH by done. by rewrite app_snoc.
Qed.

(** The body of a quoted field and its closing quote. *)
Lemma run_in_quoted (t : string) :
  forall pend rs fs f rest,
    run pend (mkReader rs fs f IN_QUOTED_FIELD)
        (double_quotes t +:+ String DQUOTE rest)
    = run true (mkReader rs fs (f +:+ t) QUOTE_IN_QUOTED_FIELD) rest.
Proof.
  induction t as [|a t IH]; intros pend rs fs f rest.
  - rewrite app_nil_r. simpl double_quotes. rewrite app_nil_l, run_cons.
    by rewrite ends_line_plain by done.
  - simpl double_quotes. destruct (decide (a = DQUOTE)) as [->|Hdq].
    + rewrite !app_cons, run_cons, ends_line_plain by done.
      unfold parse_process_char at 1. cbn [state].
      rewrite decide_True by done. cbn [mbind option_bind].
      rewrite run_cons, ends_line_plain by done.
      unfold parse_process_char at 1, set_state. cbn [state].
      rewrite decide_True by done. cbn [mbind option_bind].
      unfold parse_add_char. cbn [records fields field state].
      rewrite IH. by rewrite app_snoc.
    + rewrite app_cons, run_cons.
      unfold parse_process_char at 1. cbn [state].
      rewrite decide_False by done. cbn [mbind option_bind].
      unfold parse_add_char, end_of_line, parse_process_char.
      cbn [records fields field state fmap option_fmap option_map mbind option_bind].
      unfold emit. cbn [state]. rewrite decide_False by done.
      destruct (ends_line a _); cbn [mbind option_bind];
        rewrite IH; by rewrite app_snoc.
Qed.

(** From the start of a field to the first character after it. *)
Lemma run_field_start (t : string) (st : ParserState) :
  at_start st ->
  forall pend rs fs c rest,
    (c = COMMA \/ c = CR) ->
    csv_field t ≠ "" ->
    exists st',
      (st' = IN_FIELD \/ st' = QUOTE_IN_QUOTED_FIELD)
      /\ run pend (mkReader rs fs "" st) (csv_field t +:+ String c rest)
         = run true (mkReader rs fs t st') (String c rest).
Proof.
  intros Hst pend rs fs c rest Hc Hne. unfold csv_field in *.
  destruct (needs_quoting t) eqn:Hq.
  - exists QUOTE_IN_QUOTED_FIELD. split; [by right|].
    unfold quoted. rewrite app_cons, app_assoc, app_cons, app_nil_l, run_cons.
    rewrite ends_line_plain by done.
    assert (parse_process_char (mkReader rs fs "" st) (Some DQUOTE)
            = Some (mkReader rs fs "" IN_QUOTED_FIELD)) as ->.
    { by destruct Hst as [-> | ->]. }
    cbn [mbind option_bind]. by rewrite run_in_quoted, app_nil_l.
  - exists IN_FIELD. split; [by left|].
    destruct t as [|a t]; [done|].
    simpl in Hq. apply orb_false_iff in Hq as [Ha Hq].
    apply special_false in Ha as (Hcomma & Hdq & Hcr & Hlf).
    rewrite app_cons, run_cons, ends_line_plain by done.
    assert (parse_process_char (mkReader rs fs "" st) (Some a)
            = Some (mkReader rs fs (String a "") IN_FIELD)) as ->.
    { destruct Hst as [-> | ->]; unfold parse_process_char, start_field, line_break;
        cbn [state]; rewrite is_newline_plain by done;
        by rewrite !decide_False by done. }
    cbn [mbind option_bind]. by rewrite run_in_field.
Qed.

Lemma csv_field_nil (t : string) : csv_field t = "" <-> t = "".
Proof.
  unfold csv_field. split; [|by intros ->].
  destruct (needs_quoting t) eqn:Hq; [|done]. by unfold quoted.
Qed.

Lemma run_field_comma (t : string) (st : ParserState) :
  at_start st ->
  forall pend rs fs rest,
    run pend (mkReader rs fs "" st) (csv_field t +:+ String COMMA rest)
    = run true (mkReader rs (fs ++ [t]) "" START_FIELD) rest.
Proof.
  intros Hst pend rs fs rest.
  destruct (decide (csv_field t = "")) as [He|Hne].
  - rewrite He. apply csv_field_nil in He as ->.
    rewrite app_nil_l, run_cons, ends_line_plain by done.
    by destruct Hst as [-> | ->].
  - destruct (run_field_start t st Hst pend rs fs COMMA rest) as (st' & Hst' & ->);
      [by left|done|].
    rewrite run_cons, ends_line_plain by done.
    by destruct Hst' as [-> | ->].
Qed.

Lemma run_crlf (rs : list (list string)) (fs : list string) (f : string)
    (st : ParserState) (pend : bool) (rest : string) :
  st = START_FIELD \/ st = IN_FIELD \/ st = QUOTE_IN_QUOTED_FIELD ->
  run pend (mkReader rs fs f st) (CRLF +:+ rest)
  = run false (mkReader (rs ++ [fs ++ [f]]) [] "" START_RECORD) rest.
Proof. by intros [-> | [-> | ->]]. Qed.

Lemma run_field_crlf (t : string) (st : ParserState) :
  st = START_FIELD \/ (st = START_RECORD /\ t ≠ "") ->
  forall pend rs fs rest,
    run pend (mkReader rs fs "" st) (csv_field t +:+ CRLF +:+ rest)
    = run false (mkReader (rs ++ [fs ++ [t]]) [] "" START_RECORD) rest.
Proof.
  intros Hst pend rs fs rest.
  destruct (decide (csv_field t = "")) as [He|Hne].
  - rewrite He. apply csv_field_nil in He as ->.
    destruct Hst as [-> | [_ ?]]; [|done].
    rewrite app_nil_l. apply run_crlf. by left.
  - assert (at_start st) as Hst'.
    { destruct Hst as [-> | [-> _]]; [by right|by left]. }
    destruct (run_field_start t st Hst' pend rs fs CR (String LF rest))
      as (st' & Hst'' & Heq); [by right|done|].
    change (CRLF +:+ rest) with (String CR (String LF rest)).
    rewrite Heq. apply (run_crlf rs fs t st' true rest).
    destruct Hst'' as [-> | ->]; auto.
Qed.

(** A row of at least one field, written as [csv.writer] joins it. *)
Lemma run_joined (tl : list string) :
  forall (t : string) (st : ParserState) pend rs fs rest,
    st = START_FIELD \/ (st = START_RECORD /\ (t ≠ "" \/ tl ≠ [])) ->
    run pend (mkReader rs fs "" st)
        (join "," (csv_field <$> (t :: tl)) +:+ CRLF +:+ rest)
    = run false (mkReader (rs ++ [fs ++ t :: tl]) [] "" START_RECORD) rest.
Proof.
  induction tl as [|t' tl IH]; intros t st pend rs fs rest Hst.
  - cbn [fmap list_fmap join]. apply run_field_crlf.
    destruct Hst as [-> | [-> [? | ?]]]; auto; done.
  - change (join "," (csv_field <$> (t :: t' :: tl)))
      with (csv_field t +:+ "," +:+ join "," (csv_field <$> (t' :: tl))).
    rewrite !app_assoc. change ("," +:+ ?x) with (String COMMA x).
    rewrite run_field_comma.
    + rewrite IH by (by left). do 3 f_equal. by rewrite <- (assoc_L (++)).
    + destruct Hst as [-> | [-> _]]; [by right|by left].
Qed.

Lemma run_writerow (row : list string) (pend : bool) (rs : list (list string))
    (rest : string) :
  run pend (fresh rs) (writerow row +:+ rest) = run false (fresh (rs ++ [row])) rest.
Proof.
  unfold writerow, fresh. rewrite app_assoc.
  destruct row as [|t tl]; [done|].
  destruct (decide (t = "" /\ tl = [])) as [[-> ->]|Hne]; [done|].
  assert (csv_record (t :: tl) = join "," (csv_field <$> (t :: tl))) as ->.
  { destruct t; [|done]. destruct tl; [|done]. by destruct Hne. }
  rewrite run_joined; [done|]. right. split; [done|].
  destruct (decide (t = "")) as [->|]; [right|by left].
  intros ->. by apply Hne.
Qed.

Lemma run_write_rows (rows : list (list string)) (rs : list (list string)) :
  run false (fresh rs) (write_rows rows) = Some (fresh (rs ++ rows)).
Proof.
  revert rs. induction rows as [|row rows IH]; intros rs.
  - simpl. by rewrite (right_id_L [] (++)).
  - simpl. rewrite run_writerow, IH. by rewrite <- (assoc_L (++)).
Qed.

(** Reading a log made of written rows gives the rows back. *)
Lemma csv_reader_write_rows (rows : list (list string)) :
  csv_reader (write_rows rows) = Some rows.
Proof.
  unfold csv_reader. rewrite feed_lines_readlines.
  change reader_init with (fresh []). by rewrite run_write_rows.
Qed.

End CsvReaderFacts.

(** ** The append loop *)

Module CsvFacts.
Import Text TextFacts Csv CsvReader CsvReaderFacts.

(** One step of the loop either skips the record or writes its row. *)
Lemma append_step_cases (st : AppendState) (e : Entry) :
  (canonical_line e ∈ existing_lines st /\ append_step st e = st)
  \/ ((canonical_line e ∉ existing_lines st)
      /\ append_step st e
         = {| log := log st +:+ writerow (row_of e);
              existing_lines := existing_lines st ∪ {[ canonical_line e ]};
              new_count := S (new_count st) |}).
Proof.
  destruct e as [[[date domain] title] link]. unfold append_step.
  destruct (decide (canonical_line (date, domain, title, link) ∈ existing_lines st));
    [left|right]; done.
Qed.

(** What the loop adds to the log is the rows of a sublist of the
    records, and it counts them. *)
Lemma append_loop_spec (entries : list Entry) :
  forall st : AppendState,
  exists added : list Entry,
    sublist added entries
    /\ log (append_loop st entries)
       = log st +:+ write_rows (row_of <$> added)
    /\ new_count (append_loop st entries) = new_count st + length added.
Proof.
  induction entries as [|e entries IH]; intros st.
  - exists []. simpl. by rewrite app_nil_r, Nat.add_0_r.
  - unfold append_loop. simpl. fold (append_loop (append_step st e) entries).
    destruct (IH (append_step st e)) as (added & Hsub & Hlog & Hcount).
    destruct (append_step_cases st e) as [[_ Heq] | [_ Heq]]; rewrite Heq in *.
    + exists added. split; [by apply sublist_cons|done].
    + exists (e :: added). split; [by apply sublist_skip|].
      simpl in *. rewrite Hlog, Hcount, app_assoc. split; [done|lia].
Qed.

(** The line built for the comparison ends with a double quote. *)
Lemma canonical_line_ends_with_quote (e : Entry) :
  exists body, canonical_line e = body +:+ String DQUOTE "".
Proof.
  destruct e as [[[date domain] title] link]. unfold canonical_line, join.
  exists (date +:+ "," +:+ domain +:+ "," +:+ quoted title +:+ ","
          +:+ String DQUOTE link).
  by rewrite !app_assoc, app_cons.
Qed.

Lemma no_line_break_csv_field (s : string) :
  no_line_break (csv_field s) = no_line_break s.
Proof.
  unfold csv_field. destruct (needs_quoting s); [|done].
  unfold quoted. cbn [no_line_break]. rewrite no_line_break_app.
  rewrite no_line_break_double_quotes. by destruct (no_line_break s).
Qed.

(** What the program reads back from a log that holds one row without
    line breaks inside: one line, with the CR of the terminator on it. *)
Lemma load_one_row (date domain title link : string) :
  no_line_break date = true -> no_line_break domain = true ->
  no_line_break title = true -> no_line_break link = true ->
  load_existing_lines (Some (writerow [date; domain; title; link]))
  = {[ csv_record [date; domain; title; link] +:+ String CR "" ]}.
Proof.
  intros Hd Ho Ht Hl. unfold load_existing_lines, writerow, readlines.
  rewrite readlines_go_one_line.
  - cbn [foldl]. rewrite app_nil_l, rstrip_nl_crlf. by rewrite (left_id_L ∅ (∪)).
  - assert (csv_record [date; domain; title; link]
            = csv_field date +:+ "," +:+ csv_field domain +:+ ","
              +:+ csv_field title +:+ "," +:+ csv_field link) as ->.
    { by destruct date. }
    rewrite !no_line_break_app, !no_line_break_csv_field.
    rewrite Hd, Ho, Ht, Hl. done.
Qed.

(** The defect behind re-runs, for every record without line breaks in
    its fields: written to a missing log and appended again, the row is
    written again. *)
Lemma rerun_repeats_row (date domain title link : string) :
  no_line_break date = true -> no_line_break domain = true ->
  no_line_break title = true -> no_line_break link = true ->
  let row := writerow [date; domain; title; link] in
  append_entries_to_csv None [(date, domain, title, link)] = (Some row, 1)
  /\ append_entries_to_csv (Some row) [(date, domain, title, link)]
     = (Some (row +:+ row), 1).
Proof.
  intros Hd Ho Ht Hl row. split.
  - unfold append_entries_to_csv, append_loop. cbn [foldl].
    unfold append_step. cbn [load_existing_lines existing_lines].
    by rewrite decide_False by set_solver.
  - unfold append_entries_to_csv, append_loop. cbn [foldl].
    unfold append_step. cbn [existing_lines]. subst row.
    rewrite load_one_row by done.
    rewrite decide_False; [done|].
    intros Hin%elem_of_singleton.
    destruct (canonical_line_ends_with_quote (date, domain, title, link))
      as [body Hbody].
    rewrite Hbody in Hin. by apply app_snoc_inj in Hin.
Qed.

End CsvFacts.

(** ** The log: append-only, round trips, and re-runs *)

Module LogClaims.
Import Text TextFacts Csv CsvReader CsvReaderFacts CsvFacts Samples.



(** C4.  A record whose title holds double quotes, written to a new log,
    is one row of the log; in the row the title stands between quotes with
    its quotes doubled; and reading the log back with the CSV reader gives
    the four fields unchanged, the title among them. *)
Theorem quoted_title_round_trips (date domain title link : string) :
  contains_char DQUOTE title = true ->
  append_entries_to_csv None [(date, domain, title, link)]
  = (Some (writerow [date; domain; title; link]), 1)
  /\ writerow [date; domain; title; link]
     = join "," [csv_field date; csv_field domain; quoted title; csv_field link]
       +:+ CRLF
  /\ csv_reader (writerow [date; domain; title; link])
     = Some [[date; domain; title; link]].
Proof.
  intros Hq. split; [|split].
  - unfold append_entries_to_csv, append_loop. cbn [foldl].
    unfold append_step. cbn [load_existing_lines existing_lines].
    rewrite decide_False by set_solver. done.
  - assert (csv_field title = quoted title) as Ht.
    { unfold csv_field. by rewrite (contains_dquote_needs_quoting _ Hq). }
    unfold writerow, csv_record.
    destruct date; cbn [fmap list_fmap]; by rewrite Ht.
  - pose proof (csv_reader_write_rows [[date; domain; title; link]]) as H.
    cbn [write_rows foldr] in H. by rewrite app_nil_r in H.
Qed.

Lemma quoted_title_round_trips_witness :
  contains_char DQUOTE quoted_title = true
  /\ (append_entries_to_csv None [("2024-01-01", "example.com", quoted_title, "https://example.com/a")]
      = (Some (writerow ["2024-01-01"; "example.com"; quoted_title; "https://example.com/a"]), 1)
      /\ writerow ["2024-01-01"; "example.com"; quoted_title; "https://example.com/a"]
         = join "," [csv_field "2024-01-01"; csv_field "example.com";
                     quoted quoted_title; csv_field "https://example.com/a"]
           +:+ CRLF
      /\ csv_reader (writerow ["2024-01-01"; "example.com"; quoted_title; "https://example.com/a"])
         = Some [["2024-01-01"; "example.com"; quoted_title; "https://example.com/a"]]).
Proof.
  split; [reflexivity|].
  apply (quoted_title_round_trips "2024-01-01" "example.com" quoted_title
           "https://example.com/a").
  reflexivity.
Defined.

(** C1 (the code does not do this).  A record is appended to a missing
    log and the same record is appended again: the second call writes the
    row a second time and returns 1.  The line read back from the file
    keeps the CR of the row terminator and has no quotes around title and
    link, so it never equals the line built for the comparison. *)
Theorem rerun_appends_row_again :
  append_entries_to_csv None [plain_entry] = (Some plain_row, 1)
  /\ append_entries_to_csv (Some plain_row) [plain_entry]
     = (Some (plain_row +:+ plain_row), 1)
  /\ canonical_line plain_entry ∉ load_existing_lines (Some plain_row).
Proof. split; [|split]; by vm_compute. Qed.

(** C2 (the code does not do this).  After two appends of one record to
    a missing log the log holds two rows for the same tuple. *)
Theorem two_runs_duplicate_tuple :
  (append_entries_to_csv None [plain_entry]).1 ≫= (fun log1 =>
    (append_entries_to_csv (Some log1) [plain_entry]).1 ≫= csv_reader)
  = Some [row_of plain_entry; row_of plain_entry].
Proof. by vm_compute. Qed.

End LogClaims.

(** ** The extractors *)

Module HarvestFacts.
Import Text Csv Harvest.

Section WithEnv.
Context `{E : Env}.

Lemma bind_inr {A B} (m : M A) (k : A -> M B) (st st' : St) (a : A) :
  m st = (inr a, st') -> (m ≫= k) st = k a st'.
Proof. intros H. unfold mbind, M_bind, bind. by rewrite H. Qed.

Lemma for_each_app {A S : Type} (body : S -> A -> M S) (before after : list A) :
  forall (acc acc1 : S) (st st1 : St),
    for_each body acc before st = (inr acc1, st1) ->
    for_each body acc (before ++ after) st = for_each body acc1 after st1.
Proof.
  induction before as [|x before IH]; intros acc acc1 st st1 Hrun.
  - cbn in Hrun. by inversion Hrun.
  - cbn [for_each app] in *. unfold mbind, M_bind, bind in *.
    destruct (body acc x st) as [[e|acc'] st']; [discriminate Hrun|].
    by apply IH.
Qed.

Lemma today_iso_returns (st : St) :
  exists today st', today_iso st = (inr today, st').
Proof.
  unfold today_iso, with_world. destruct (date_today (world st)); eauto.
Qed.

(** *** The feed path *)

Lemma rss_step_spec (d : string) (acc : list Entry)
    (entry : FeedEntry TimeStruct) (st : St) :
  exists added st',
    rss_step d acc entry st = (inr (acc ++ added), st')
    /\ length added <= 1
    /\ Forall (from_feed d [entry]) added.
Proof.
  unfold rss_step.
  destruct (bool_decide (strip (default "" (e_title entry)) = "")
            || bool_decide (strip (default "" (e_link entry)) = "")) eqn:Hskip.
  - exists [], st. rewrite (right_id_L [] (++)).
    split; [done|]. split; [simpl; lia|constructor].
  - apply orb_false_iff in Hskip as [Ht Hl].
    apply bool_decide_eq_false in Ht, Hl.
    destruct (today_iso_returns st) as (today & st' & Htoday).
    eexists [_], st'. rewrite (bind_inr _ _ _ _ _ Htoday).
    split; [done|]. split; [done|].
    constructor; [|done]. exists entry. repeat split; try done. set_solver.
Qed.

Lemma from_feed_mono (d : string) (l l' : list (FeedEntry TimeStruct))
    (e : Entry) :
  l ⊆ l' -> from_feed d l e -> from_feed d l' e.
Proof. intros Hsub (entry & Hin & H). exists entry. split; [auto|done]. Qed.

Lemma for_each_rss_spec (d : string) (items : list (FeedEntry TimeStruct)) :
  forall (acc : list Entry) (st : St),
  exists added st',
    for_each (rss_step d) acc items st = (inr (acc ++ added), st')
    /\ length added <= length items
    /\ Forall (from_feed d items) added.
Proof.
  induction items as [|entry items IH]; intros acc st.
  - exists [], st. rewrite (right_id_L [] (++)).
    split; [done|]. split; [done|constructor].
  - destruct (rss_step_spec d acc entry st) as (a1 & st1 & H1 & Hlen1 & Hall1).
    destruct (IH (acc ++ a1) st1) as (a2 & st2 & H2 & Hlen2 & Hall2).
    exists (a1 ++ a2), st2. cbn [for_each].
    rewrite (bind_inr _ _ _ _ _ H1), H2, (assoc_L (++)).
    split; [done|]. split; [rewrite length_app; simpl; lia|].
    apply Forall_app. split.
    + eapply Forall_impl; [exact Hall1|]. intros x.
      apply from_feed_mono. intros y ->%list_elem_of_singleton. left.
    + eapply Forall_impl; [exact Hall2|]. intros x.
      apply from_feed_mono, list_subseteq_cons. done.
Qed.

Lemma harvest_rss_spec (url : string) (resp : Response) (st : St) :
  exists entries st',
    harvest_rss url resp st = (inr entries, st')
    /\ length entries <= MAX_ITEMS_PER_SOURCE
    /\ Forall (from_feed (domain_from_url url)
                 (take MAX_ITEMS_PER_SOURCE (feedparser_entries (content resp))))
              entries.
Proof.
  unfold harvest_rss.
  destruct (feedparser_entries (content resp)) as [|entry parsed] eqn:Hp.
  - exists [], st. split; [done|]. split; [simpl; lia|constructor].
  - destruct (for_each_rss_spec (domain_from_url url)
                (take MAX_ITEMS_PER_SOURCE (entry :: parsed)) [] st)
      as (added & st' & Hrun & Hlen & Hall).
    exists added, st'. split; [done|]. split; [|done].
    rewrite length_take in Hlen. lia.
Qed.

(** *** The HTML path *)

Lemma candidate_step_nonempty (acc : list (string * string)) (tag : Node) :
  Forall nonempty_pair acc -> Forall nonempty_pair (candidate_step acc tag).
Proof.
  intros Hacc. unfold candidate_step.
  destruct (find_a_href tag) as [a|]; [|done].
  destruct (bool_decide (get_text_strip a ≠ "")
            && bool_decide (default "" (get_attr "href" a) ≠ "")) eqn:Hb; [|done].
  apply andb_true_iff in Hb as [Ht Hh]. apply bool_decide_eq_true in Ht, Hh.
  apply Forall_app. split; [done|]. by repeat constructor.
Qed.

Lemma candidate_loop_nonempty (tags : list Node) :
  forall acc : list (string * string),
    Forall nonempty_pair acc ->
    Forall nonempty_pair (foldl candidate_step acc tags).
Proof.
  induction tags as [|tag tags IH]; intros acc Hacc; [done|].
  simpl. by apply IH, candidate_step_nonempty.
Qed.

Lemma html_candidates_nonempty (soup : list Node) :
  Forall nonempty_pair (html_candidates soup).
Proof.
  assert (Forall nonempty_pair (article_candidates soup)) as Ha.
  { by apply candidate_loop_nonempty. }
  assert (Forall nonempty_pair (headline_candidates soup)) as Hh.
  { unfold headline_candidates. cbn [foldl].
    by do 3 apply candidate_loop_nonempty. }
  unfold html_candidates. by destruct (article_candidates soup).
Qed.

Lemma from_page_mono (url today d : string) (l l' : list (string * string))
    (e : Entry) :
  l ⊆ l' -> from_page url today d l e -> from_page url today d l' e.
Proof.
  intros Hsub (t & h & k & Hin & H). exists t, h, k. split; [auto|done].
Qed.

(** The loop either goes through all candidates, and then [urljoin]
    resolved every href, or it stops at a candidate whose href [urljoin]
    rejects. *)
Lemma normalize_loop_spec (url today d : string)
    (candidates : list (string * string)) :
  forall (seen : gset (string * string)) (entries : list Entry),
    match normalize_loop url today d (seen, entries) candidates with
    | inr acc =>
        forallb (resolves url) candidates = true
        /\ exists added,
            acc.2 = entries ++ added
            /\ length added <= length candidates
            /\ Forall (from_page url today d candidates) added
    | inl msg =>
        forallb (resolves url) candidates = false
        /\ exists c, c ∈ candidates /\ urljoin url c.2 = inl msg
    end.
Proof.
  induction candidates as [|[title href] candidates IH]; intros seen entries.
  - cbn. split; [done|]. exists []. rewrite (right_id_L [] (++)).
    split; [done|]. split; [done|constructor].
  - cbn [normalize_loop normalize_step forallb].
    assert (resolves url (title, href)
            = match urljoin url href with inr _ => true | inl _ => false end)
      as -> by done.
    destruct (urljoin url href) as [msg|link] eqn:Hjoin.
    + split; [done|]. exists (title, href). split; [left|done].
    + cbn [andb]. destruct (decide ((title, link) ∈ seen)).
      * generalize (IH seen entries).
        destruct (normalize_loop url today d (seen, entries) candidates)
          as [msg|acc].
        -- intros [Hf (c & Hin & Hc)]. split; [done|].
           exists c. split; [by right|done].
        -- intros [Hf (added & Heq & Hlen & Hall)]. split; [done|].
           exists added. split; [done|]. split; [simpl; lia|].
           eapply Forall_impl; [exact Hall|]. intros x.
           apply from_page_mono, list_subseteq_cons. done.
      * generalize (IH (seen ∪ {[(title, link)]})
                       (entries ++ [(today, d, title, link)])).
        destruct (normalize_loop url today d
                    (seen ∪ {[(title, link)]},
                     entries ++ [(today, d, title, link)]) candidates)
          as [msg|acc].
        -- intros [Hf (c & Hin & Hc)]. split; [done|].
           exists c. split; [by right|done].
        -- intros [Hf (added & Heq & Hlen & Hall)]. split; [done|].
           exists ((today, d, title, link) :: added).
           split; [by rewrite Heq, <- (assoc_L (++))|]. split; [simpl; lia|].
           constructor.
           ++ exists title, href, link. split; [left|done].
           ++ eapply Forall_impl; [exact Hall|]. intros x.
              apply from_page_mono, list_subseteq_cons. done.
Qed.

Lemma normalize_and_limit_spec (url today d : string)
    (candidates : list (string * string)) :
  match normalize_and_limit url today d candidates with
  | inr entries =>
      forallb (resolves url) (take MAX_ITEMS_PER_SOURCE candidates) = true
      /\ length entries <= MAX_ITEMS_PER_SOURCE
      /\ Forall (from_page url today d candidates) entries
  | inl msg =>
      forallb (resolves url) (take MAX_ITEMS_PER_SOURCE candidates) = false
      /\ exists c, c ∈ take MAX_ITEMS_PER_SOURCE candidates
                   /\ urljoin url c.2 = inl msg
  end.
Proof.
  unfold normalize_and_limit.
  generalize (normalize_loop_spec url today d
                (take MAX_ITEMS_PER_SOURCE candidates) ∅ []).
  destruct (normalize_loop url today d (∅, [])
              (take MAX_ITEMS_PER_SOURCE candidates)) as [msg|[seen entries]];
    [done|].
  intros [Hf (added & Heq & Hlen & Hall)]. cbn [snd app] in Heq. subst entries.
  split; [done|]. split.
  - rewrite length_take in Hlen. lia.
  - eapply Forall_impl; [exact Hall|]. intros x.
    apply from_page_mono, subseteq_take.
Qed.

(** [harvest_html] reads the clock and then returns what the last loop
    gives, or raises the [ValueError] that ended it. *)
Lemma harvest_html_unfold (url : string) (resp : Response) (st st' : St)
    (today : string) :
  today_iso st = (inr today, st') ->
  harvest_html url resp st
  = (match normalize_and_limit url today (domain_from_url url)
             (html_candidates (html_parser (text resp))) with
     | inl msg => inl (ValueError msg)
     | inr entries => inr entries
     end, st').
Proof.
  intros H. unfold harvest_html. rewrite (bind_inr _ _ _ _ _ H).
  by destruct (normalize_and_limit url today (domain_from_url url)
                 (html_candidates (html_parser (text resp)))).
Qed.

Lemma today_iso_prints_nothing (st st' : St) (today : string) :
  today_iso st = (inr today, st') ->
  stdout st' = stdout st /\ stderr st' = stderr st.
Proof.
  unfold today_iso, with_world. destruct (date_today (world st)).
  by intros [= _ <-].
Qed.

(** A returned list is the result of the last loop. *)
Lemma harvest_html_returned (url : string) (resp : Response) (st st' : St)
    (entries : list Entry) :
  harvest_html url resp st = (inr entries, st') ->
  exists today,
    today_iso st = (inr today, st')
    /\ normalize_and_limit url today (domain_from_url url)
         (html_candidates (html_parser (text resp))) = inr entries.
Proof.
  destruct (today_iso_returns st) as (today & st1 & Htoday).
  rewrite (harvest_html_unfold _ _ _ _ _ Htoday).
  destruct (normalize_and_limit url today (domain_from_url url)
              (html_candidates (html_parser (text resp)))) as [msg|es] eqn:Hn;
    [done|].
  intros [= <- <-]. by exists today.
Qed.

(** The two outcomes of [harvest_html]; it prints nothing. *)
Lemma harvest_html_outcome (url : string) (resp : Response) (st : St) :
  exists st',
    stdout st' = stdout st /\ stderr st' = stderr st
    /\ ((exists entries,
           harvest_html url resp st = (inr entries, st')
           /\ length entries <= MAX_ITEMS_PER_SOURCE)
        \/ (exists msg,
              harvest_html url resp st = (inl (ValueError msg), st'))).
Proof.
  destruct (today_iso_returns st) as (today & st' & Htoday).
  destruct (today_iso_prints_nothing _ _ _ Htoday) as [Ho He].
  exists st'. split; [done|]. split; [done|].
  rewrite (harvest_html_unfold _ _ _ _ _ Htoday).
  generalize (normalize_and_limit_spec url today (domain_from_url url)
                (html_candidates (html_parser (text resp)))).
  destruct (normalize_and_limit url today (domain_from_url url)
              (html_candidates (html_parser (text resp)))) as [msg|es].
  - intros _. right. by exists msg.
  - intros (_ & Hlen & _). left. by exists es.
Qed.

(** What a returned list is made of. *)
Lemma harvest_html_spec (url : string) (resp : Response) (st st' : St)
    (entries : list Entry) :
  harvest_html url resp st = (inr entries, st') ->
  exists today,
    today_iso st = (inr today, st')
    /\ length entries <= MAX_ITEMS_PER_SOURCE
    /\ Forall (from_page url today (domain_from_url url)
                 (html_candidates (html_parser (text resp)))) entries.
Proof.
  intros (today & Htoday & Hn)%harvest_html_returned.
  exists today. split; [done|].
  generalize (normalize_and_limit_spec url today (domain_from_url url)
                (html_candidates (html_parser (text resp)))).
  rewrite Hn. by intros (_ & Hlen & Hall).
Qed.

(** When [harvest_html] returns and when it raises. *)
Lemma harvest_html_runs (url : string) (resp : Response) (st : St) :
  if forallb (resolves url)
       (take MAX_ITEMS_PER_SOURCE (html_candidates (html_parser (text resp))))
  then exists entries st', harvest_html url resp st = (inr entries, st')
  else exists msg st', harvest_html url resp st = (inl (ValueError msg), st').
Proof.
  destruct (today_iso_returns st) as (today & st' & Htoday).
  rewrite (harvest_html_unfold _ _ _ _ _ Htoday).
  generalize (normalize_and_limit_spec url today (domain_from_url url)
                (html_candidates (html_parser (text resp)))).
  destruct (normalize_and_limit url today (domain_from_url url)
              (html_candidates (html_parser (text resp)))) as [msg|es].
  - intros [-> _]. by exists msg, st'.
  - intros [-> _]. by exists es, st'.
Qed.

(** *** Fetching and the loop over the outlets *)

Lemma fetch_url_fail (url : string) (st st1 : St) (e : Exn) :
  fetch_body url st = (inl e, st1) ->
  fetch_url url st = (inr None, log_warning (fetch_warning url e) st1).
Proof. intros H. unfold fetch_url, try_except. by rewrite H. Qed.

Lemma fetch_url_ok (url : string) (st st1 : St) (r : option Response) :
  fetch_body url st = (inr r, st1) -> fetch_url url st = (inr r, st1).
Proof. intros H. unfold fetch_url, try_except. by rewrite H. Qed.

Lemma fetch_url_total (url : string) (st : St) :
  exists r st', fetch_url url st = (inr r, st').
Proof.
  destruct (fetch_body url st) as [[e|r] st1] eqn:H.
  - rewrite (fetch_url_fail _ _ _ _ H). eauto.
  - rewrite (fetch_url_ok _ _ _ _ H). eauto.
Qed.

(** [harvest_one_url] returns, or ends with the [ValueError] of
    [urljoin] in the HTML path. *)
Lemma harvest_one_url_outcome (url : string) (dry_run : bool) (st : St) :
  exists st',
    (exists entries, harvest_one_url url dry_run st = (inr entries, st'))
    \/ (exists msg, harvest_one_url url dry_run st = (inl (ValueError msg), st')).
Proof.
  unfold harvest_one_url.
  destruct (fetch_url_total url st) as ([resp|] & st1 & Hf);
    rewrite (bind_inr _ _ _ _ _ Hf); [|by eexists; left; eexists].
  destruct (harvest_rss_spec url resp st1) as (rss & st2 & Hrss & _).
  rewrite (bind_inr _ _ _ _ _ Hrss). destruct rss as [|e rss].
  - destruct (harvest_html_outcome url resp st2)
      as (st3 & _ & _ & [(html & Hhtml & _)|(msg & Hhtml)]).
    + rewrite (bind_inr _ _ _ _ _ Hhtml). eexists. left. by eexists.
    + exists st3. right. exists msg.
      unfold mbind, M_bind, bind. by rewrite Hhtml.
  - eexists. left. by eexists.
Qed.

Lemma harvest_one_url_fetch_fail (url : string) (dry_run : bool)
    (st st1 : St) (e : Exn) :
  fetch_body url st = (inl e, st1) ->
  harvest_one_url url dry_run st
  = (inr [], log_warning (fetch_warning url e) st1).
Proof.
  intros H. unfold harvest_one_url.
  by rewrite (bind_inr _ _ _ _ _ (fetch_url_fail _ _ _ _ H)).
Qed.

Lemma outlet_step_returns (dry_run : bool) (acc entries : list Entry)
    (url : string) (st st1 : St) :
  harvest_one_url url dry_run st = (inr entries, st1) ->
  outlet_step dry_run acc url st = (inr (acc ++ entries), st1).
Proof. intros H. unfold outlet_step. by rewrite (bind_inr _ _ _ _ _ H). Qed.

Lemma outlet_step_raises (dry_run : bool) (acc : list Entry)
    (url : string) (st st1 : St) (e : Exn) :
  harvest_one_url url dry_run st = (inl e, st1) ->
  outlet_step dry_run acc url st = (inl e, st1).
Proof. intros H. unfold outlet_step, mbind, M_bind, bind. by rewrite H. Qed.

(** The loop over the outlets returns, or ends with the [ValueError] one
    of its outlets raised. *)
Lemma outlets_loop_outcome (dry_run : bool) (urls : list string) :
  forall (acc : list Entry) (st : St),
  exists st',
    (exists entries,
       for_each (outlet_step dry_run) acc urls st = (inr (acc ++ entries), st'))
    \/ (exists msg,
          for_each (outlet_step dry_run) acc urls st
          = (inl (ValueError msg), st')).
Proof.
  induction urls as [|url urls IH]; intros acc st.
  - exists st. left. exists []. by rewrite (right_id_L [] (++)).
  - cbn [for_each].
    destruct (harvest_one_url_outcome url dry_run st)
      as (st1 & [(es & H1)|(msg & H1)]).
    + rewrite (bind_inr _ _ _ _ _ (outlet_step_returns _ acc _ _ _ _ H1)).
      destruct (IH (acc ++ es) st1) as (st2 & [(es' & H2)|(msg & H2)]).
      * exists st2. left. exists (es ++ es'). by rewrite H2, (assoc_L (++)).
      * exists st2. right. by exists msg.
    + exists st1. right. exists msg.
      unfold mbind, M_bind, bind.
      by rewrite (outlet_step_raises _ acc _ _ _ _ H1).
Qed.

(** A run over the outlet file: it returns, or ends with the [ValueError]
    of [urljoin]; without the file it ends with the error of [open]. *)
Lemma harvest_all_outlets_outcome (outlets : option string) (dry_run : bool)
    (st : St) :
  match outlets with
  | Some _ =>
      exists st',
        (exists entries,
           harvest_all_outlets outlets dry_run st = (inr entries, st'))
        \/ (exists msg,
              harvest_all_outlets outlets dry_run st
              = (inl (ValueError msg), st'))
  | None =>
      harvest_all_outlets outlets dry_run st
      = (inl (OSError OUTLETS_FILE),
         log_info ("[INFO] Using outlets file: " +:+ OUTLETS_FILE) st)
  end.
Proof.
  unfold harvest_all_outlets.
  destruct outlets as [text|]; [|done].
  cbn [read_outlet_urls].
  destruct (foldl read_outlet_step [] (text_lines text)) as [|url urls] eqn:Hurls.
  - eexists. left. by eexists.
  - destruct (outlets_loop_outcome dry_run (url :: urls) []
                (log_info ("[INFO] Using outlets file: " +:+ OUTLETS_FILE) st))
      as (st' & [(es & H)|(msg & H)]); exists st'.
    + left. exists es. change ([] ++ es) with es in H.
      rewrite <- H. unfold mbind, M_bind, bind, print, mret, M_ret, ret.
      reflexivity.
    + right. exists msg.
      rewrite <- H. unfold mbind, M_bind, bind, print, mret, M_ret, ret.
      reflexivity.
Qed.

(** The exceptions that can end a run. *)
Lemma harvest_all_outlets_raises (outlets : option string) (dry_run : bool)
    (st st' : St) (e : Exn) :
  harvest_all_outlets outlets dry_run st = (inl e, st') ->
  e = OSError OUTLETS_FILE \/ exists msg, e = ValueError msg.
Proof.
  intros Hrun.
  pose proof (harvest_all_outlets_outcome outlets dry_run st) as Hout.
  destruct outlets as [text|].
  - destruct Hout as (s' & [(es & Hout)|(msg & Hout)]);
      rewrite Hout in Hrun; [done|].
    right. exists msg. by inversion Hrun.
  - rewrite Hout in Hrun. left. by inversion Hrun.
Qed.

Lemma harvest_one_url_raises (url : string) (dry_run : bool) (st st' : St)
    (e : Exn) :
  harvest_one_url url dry_run st = (inl e, st') ->
  exists msg, e = ValueError msg.
Proof.
  intros Hrun.
  destruct (harvest_one_url_outcome url dry_run st)
    as (s' & [(es & Hout)|(msg & Hout)]); rewrite Hout in Hrun; [done|].
  exists msg. by inversion Hrun.
Qed.

End WithEnv.

End HarvestFacts.

(** ** The outlet list *)

Module OutletClaims.
Import Text Harvest HarvestFacts.

Lemma read_outlet_loop (lines : list string) :
  forall urls : list string,
    foldl read_outlet_step urls lines
    = urls ++ List.filter has_http_scheme
                (List.filter (fun line => negb (is_comment line)) (strip <$> lines)).
Proof.
  induction lines as [|line lines IH]; intros urls.
  - cbn [foldl fmap list_fmap List.filter]. by rewrite (right_id_L [] (++)).
  - cbn [foldl fmap list_fmap List.filter]. rewrite IH.
    unfold read_outlet_step, is_comment, has_http_scheme.
    destruct (bool_decide (strip line = "")) eqn:Hblank.
    + apply bool_decide_eq_true in Hblank. by rewrite Hblank.
    + cbn [orb]. destruct (startswith (strip line) "#") eqn:Hc; [done|].
      cbn [negb List.filter].
      destruct (startswith (strip line) "http://" || startswith (strip line) "https://");
        [|done].
      by rewrite <- (assoc_L (++)).
Qed.

(** C10.  The outlet reader returns exactly the stripped lines of the
    file that are no comment and start with http:// or https://, in file
    order; every other line, blank ones included, is dropped without a
    message, and the state of the program is left as it was. *)
Theorem read_outlet_urls_keeps_http_lines `{E : Env} (text : string) (st : St) :
  read_outlet_urls (Some text) st = (inr (outlet_urls_spec text), st)
  /\ Forall (fun url => has_http_scheme url = true /\ url ≠ ""
                        /\ exists line, line ∈ text_lines text /\ url = strip line)
            (outlet_urls_spec text).
Proof.
  split.
  - unfold read_outlet_urls, outlet_urls_spec. by rewrite read_outlet_loop.
  - apply Forall_forall. intros url Hin. unfold outlet_urls_spec in Hin.
    apply list_elem_of_In, filter_In in Hin as [Hin Hhttp].
    apply filter_In in Hin as [Hin _].
    apply list_elem_of_In, list_elem_of_fmap in Hin as (line & -> & Hline).
    split; [done|]. split; [|by exists line].
    intros Hnil. by rewrite Hnil in Hhttp.
Qed.

End OutletClaims.

(** ** Extraction: cap, required fields, links, order *)

Module ExtractionClaims.
Import Text TextFacts Csv Harvest HarvestFacts Samples.




Lemma sample_urljoin_nonempty (href link : string) :
  href ≠ "" -> sample_urljoin page_url href = inr link -> link ≠ "".
Proof.
  intros Hne. unfold sample_urljoin.
  case_bool_decide; [done|]. case_bool_decide; [by intros [= <-]|].
  change (bool_decide (page_url = bare_url)) with false. cbn [andb].
  change (scheme_of page_url) with "https://".
  intros [= <-] [Habs _]%app_eq_nil. discriminate Habs.
Qed.



(** The links of the HTML path are resolved against the address of the
    outlet. *)
Lemma harvest_html_links_resolved `{E : Env} (url : string) (resp : Response)
    (st st' : St) (entries : list Entry) :
  harvest_html url resp st = (inr entries, st') ->
  Forall (fun e => exists title href,
            (title, href) ∈ html_candidates (html_parser (text resp))
            /\ urljoin url href = inr (entry_link e)) entries.
Proof.
  intros Hrun.
  destruct (harvest_html_spec _ _ _ _ _ Hrun) as (today & _ & _ & Hall).
  eapply Forall_impl; [exact Hall|].
  intros e (title & href & link & Hin & Hjoin & ->). by exists title, href.
Qed.

(** The links of the feed path are the links of the feed entries,
    stripped, whatever the address of the outlet. *)
Lemma harvest_rss_links_verbatim `{E : Env} (url : string) (resp : Response)
    (st : St) :
  exists entries st',
    harvest_rss url resp st = (inr entries, st')
    /\ Forall (fun e => exists entry,
                 entry ∈ feedparser_entries (content resp)
                 /\ entry_link e = strip (default "" (e_link entry))) entries.
Proof.
  destruct (harvest_rss_spec url resp st) as (es & st' & H & _ & Hall).
  exists es, st'. split; [done|].
  eapply Forall_impl; [exact Hall|].
  intros e (entry & Hin & _ & _ & Hl & _). exists entry. split; [|done].
  by apply (subseteq_take MAX_ITEMS_PER_SOURCE).
Qed.

(** C3 (the feed path does not do this).  On the sample feed, whose item
    has the link /story, the record keeps the relative link, where
    resolving it against the address of the outlet gives an absolute
    one; the HTML path resolves the href of the sample page. *)
Theorem feed_link_not_resolved :
  harvest_rss feed_url feed_response st0
  = (inr [("2024-01-02", "example.com", "Story", "/story")], st0)
  /\ urljoin feed_url "/story" = inr "https://example.com/story"
  /\ harvest_html page_url page_response st0
     = (inr [("2024-01-02", "example.com", "First", "https://example.com/a")], st0).
Proof. split; [|split]; by vm_compute. Qed.

End ExtractionClaims.

(** ** Order of the extraction and failing outlets *)

Module RunClaims.
Import Text TextFacts Csv Harvest HarvestFacts Samples.

(** C7.  Extraction is two-tier with a fixed order.  Once an outlet is
    fetched, the feed extractor runs first; when it returns records they
    are the result and the state is the one it left (plus the line
    printed), so the HTML extractor has not run; when it returns none,
    the HTML extractor runs from that state, and its outcome is the
    outcome of the harvest: its records, with the line printed, or the
    exception it raised.  Inside the HTML extractor the candidates are
    those of the article tags when there are any, and those of the h1, h2
    and h3 tags only when there are none. *)
Theorem extraction_is_two_tier `{E : Env} (url : string) (dry_run : bool)
    (resp : Response) (st st1 st2 : St) (rss : list Entry) :
  fetch_url url st = (inr (Some resp), st1) ->
  harvest_rss url resp st1 = (inr rss, st2) ->
  (rss ≠ [] ->
     harvest_one_url url dry_run st = (inr rss, log_info (rss_info url rss) st2))
  /\ (rss = [] ->
      harvest_one_url url dry_run st
      = match harvest_html url resp st2 with
        | (inr html, st3) => (inr html, log_info (html_info url html) st3)
        | (inl e, st3) => (inl e, st3)
        end)
  /\ (forall soup, article_candidates soup ≠ [] ->
        html_candidates soup = article_candidates soup)
  /\ (forall soup, article_candidates soup = [] ->
        html_candidates soup = headline_candidates soup).
Proof.
  intros Hfetch Hrss. repeat split.
  - intros Hne. unfold harvest_one_url.
    rewrite (bind_inr _ _ _ _ _ Hfetch), (bind_inr _ _ _ _ _ Hrss).
    by destruct rss.
  - intros ->. unfold harvest_one_url.
    rewrite (bind_inr _ _ _ _ _ Hfetch), (bind_inr _ _ _ _ _ Hrss).
    unfold mbind, M_bind, bind.
    by destruct (harvest_html url resp st2) as [[e|html] st3].
  - intros soup Hne. unfold html_candidates. by destruct (article_candidates soup).
  - intros soup Hnil. unfold html_candidates. by rewrite Hnil.
Qed.

(** Both tiers on the sample web.  The feed gives a record, and it is
    the result.  The page gives no feed record, so the HTML extractor
    runs: its record is the result, and it comes from the article tag
    although the page has an h2 with a link as well. *)
Lemma extraction_is_two_tier_witness :
  (fetch_url feed_url st0 = (inr (Some feed_response), st_fetched)
   /\ harvest_rss feed_url feed_response st_fetched
      = (inr [story_entry], st_fetched)
   /\ harvest_one_url feed_url false st0
      = (inr [story_entry], log_info (rss_info feed_url [story_entry]) st_fetched))
  /\ (fetch_url page_url st0 = (inr (Some page_response), st_fetched)
      /\ harvest_rss page_url page_response st_fetched = (inr [], st_fetched)
      /\ harvest_html page_url page_response st_fetched
         = (inr [first_entry], st_fetched)
      /\ harvest_one_url page_url false st0
         = (inr [first_entry],
            log_info (html_info page_url [first_entry]) st_fetched)
      /\ article_candidates page_soup = [("First", "/a")]
      /\ headline_candidates page_soup = [("Second", "/b")]
      /\ html_candidates page_soup = article_candidates page_soup).
Proof.
  split.
  - split; [vm_compute; reflexivity|]. split; [vm_compute; reflexivity|].
    destruct (extraction_is_two_tier feed_url false feed_response st0
                st_fetched st_fetched [story_entry]) as (Hfeed & _);
      [vm_compute; reflexivity|vm_compute; reflexivity|].
    by apply Hfeed.
  - assert (harvest_html page_url page_response st_fetched
            = (inr [first_entry], st_fetched)) as Hhtml
      by (vm_compute; reflexivity).
    split; [vm_compute; reflexivity|]. split; [vm_compute; reflexivity|].
    split; [exact Hhtml|].
    destruct (extraction_is_two_tier page_url false page_response st0
                st_fetched st_fetched []) as (_ & Hpage & Harticles & _);
      [vm_compute; reflexivity|vm_compute; reflexivity|].
    split; [by rewrite (Hpage eq_refl), Hhtml|].
    split; [vm_compute; reflexivity|]. split; [vm_compute; reflexivity|].
    apply Harticles. vm_compute. discriminate.
Defined.



End RunClaims.

(** ** Further properties of the log *)

Module LogExtras.
Import Text TextFacts Csv CsvReader CsvReaderFacts CsvFacts Vocabulary Samples.

(** *** What one call writes *)

(** The loop, in full: the rows written are those of a sublist of the
    records; their comparison lines differ from one another and from the
    known lines; afterwards the known lines are the old ones and these, and
    the line of every record is known. *)
Lemma append_loop_full (entries : list Entry) :
  forall st : AppendState,
  exists added : list Entry,
    sublist added entries
    /\ log (append_loop st entries) = log st +:+ write_rows (row_of <$> added)
    /\ new_count (append_loop st entries) = new_count st + length added
    /\ NoDup (canonical_line <$> added)
    /\ (forall e, e ∈ added -> canonical_line e ∉ existing_lines st)
    /\ existing_lines (append_loop st entries)
       = existing_lines st ∪ list_to_set (canonical_line <$> added)
    /\ (forall e, e ∈ entries ->
          canonical_line e ∈ existing_lines (append_loop st entries)).
Proof.
  induction entries as [|e entries IH]; intros st.
  - exists []. cbn. rewrite app_nil_r, Nat.add_0_r, (right_id_L ∅ (∪)).
    repeat split; try done; [constructor|intros e H; inversion H..].
  - unfold append_loop. cbn [foldl]. fold (append_loop (append_step st e) entries).
    destruct (IH (append_step st e))
      as (added & Hsub & Hlog & Hcount & Hnd & Hnew & Hset & Hall).
    destruct (append_step_cases st e) as [[Hin Heq] | [Hnin Heq]]; rewrite Heq in *.
    + exists added. split; [by apply sublist_cons|].
      do 5 (split; [done|]).
      intros e' [->|He']%elem_of_cons; [|by apply Hall].
      rewrite Hset. by apply elem_of_union_l.
    + cbn [log existing_lines new_count] in *.
      exists (e :: added). split; [by apply sublist_skip|].
      split; [by rewrite Hlog, app_assoc|]. split; [cbn; lia|].
      assert (forall e', e' ∈ added -> canonical_line e' ≠ canonical_line e) as Hne.
      { intros e' He' Heq'. apply (Hnew e' He'). rewrite Heq'.
        apply elem_of_union_r. by apply elem_of_singleton. }
      split.
      { cbn [fmap list_fmap]. constructor; [|done].
        intros (e' & Heq' & He')%list_elem_of_fmap. by apply (Hne e' He'). }
      split.
      { intros e' [->|He']%elem_of_cons; [done|].
        intros Hin. apply (Hnew e' He'). by apply elem_of_union_l. }
      split.
      { rewrite Hset. cbn [fmap list_fmap list_to_set].
        by rewrite (assoc_L (∪)). }
      intros e' [->|He']%elem_of_cons; [|by apply Hall].
      rewrite Hset. apply elem_of_union_l, elem_of_union_r. by apply elem_of_singleton.
Qed.

(** One call of [append_entries_to_csv] writes the row of a record exactly
    when the comparison line of the record was not among the lines of the
    file and no earlier record of the call had the same line: the rows
    written have pairwise different comparison lines, none of them known
    before, every record of the call is either known or written, and the
    number returned counts the rows written. *)
Theorem append_writes_each_new_line_once (file : option string)
    (entries : list Entry) :
  exists added : list Entry,
    sublist added entries
    /\ append_entries_to_csv file entries
       = (Some (file_text file +:+ write_rows (row_of <$> added)), length added)
    /\ NoDup (canonical_line <$> added)
    /\ (forall e, e ∈ added -> canonical_line e ∉ load_existing_lines file)
    /\ (forall e, e ∈ entries ->
          canonical_line e ∈ load_existing_lines file
          \/ canonical_line e ∈ canonical_line <$> added).
Proof.
  unfold append_entries_to_csv.
  destruct (append_loop_full entries
              {| log := file_text file;
                 existing_lines := load_existing_lines file;
                 new_count := 0 |})
    as (added & Hsub & Hlog & Hcount & Hnd & Hnew & Hset & Hall).
  cbn [log existing_lines new_count] in *.
  exists added. split; [done|]. split; [by rewrite Hlog, Hcount|].
  split; [done|]. split; [done|].
  intros e He. specialize (Hall e He). rewrite Hset in Hall.
  apply elem_of_union in Hall as [H|H]; [by left|right].
  by apply elem_of_list_to_set in H.
Qed.

(** Records whose lines are all known change nothing. *)
Lemma append_loop_known (entries : list Entry) (st : AppendState) :
  (forall e, e ∈ entries -> canonical_line e ∈ existing_lines st) ->
  append_loop st entries = st.
Proof.
  induction entries as [|e entries IH]; intros Hknown; [done|].
  unfold append_loop. cbn [foldl]. fold (append_loop (append_step st e) entries).
  destruct (append_step_cases st e) as [[_ Heq] | [Hnin _]].
  - rewrite Heq. apply IH. intros e' He'. apply Hknown. by right.
  - destruct Hnin. apply Hknown. by left.
Qed.

(** A batch that holds every record twice is written as the batch that
    holds it once: repetitions inside one call are skipped. *)
Theorem append_skips_repeats_in_batch (file : option string) (entries : list Entry) :
  append_entries_to_csv file (entries ++ entries)
  = append_entries_to_csv file entries.
Proof.
  unfold append_entries_to_csv, append_loop. rewrite foldl_app.
  fold (append_loop {| log := file_text file;
                       existing_lines := load_existing_lines file;
                       new_count := 0 |} entries).
  set (st := append_loop _ entries).
  fold (append_loop st entries).
  rewrite append_loop_known; [done|].
  intros e He.
  destruct (append_loop_full entries
              {| log := file_text file;
                 existing_lines := load_existing_lines file;
                 new_count := 0 |}) as (_ & _ & _ & _ & _ & _ & _ & Hall).
  by apply Hall.
Qed.

(** *** The log stays readable *)

(** What a call returns, in short. *)
Lemma append_entries_added (file : option string) (entries : list Entry) :
  exists added : list Entry,
    sublist added entries
    /\ append_entries_to_csv file entries
       = (Some (file_text file +:+ write_rows (row_of <$> added)), length added).
Proof.
  unfold append_entries_to_csv.
  destruct (append_loop_spec entries
              {| log := file_text file;
                 existing_lines := load_existing_lines file;
                 new_count := 0 |}) as (added & Hsub & Hlog & Hcount).
  exists added. split; [done|]. by rewrite Hlog, Hcount.
Qed.

Lemma write_rows_app (rows rows' : list (list string)) :
  write_rows (rows ++ rows') = write_rows rows +:+ write_rows rows'.
Proof.
  induction rows as [|row rows IH]; [done|].
  cbn [app write_rows foldr]. fold (write_rows (rows ++ rows')).
  fold (write_rows rows). by rewrite IH, app_assoc.
Qed.

(** A log made of rows stays a log made of rows: after any call, reading
    the file with the CSV reader gives the rows that were there followed by
    one row of four fields, unchanged, for each record written, whatever
    characters the fields hold; a missing file reads back as just the new
    rows. *)
Theorem appended_log_reads_back (rows : list (list string)) (entries : list Entry) :
  (exists added : list Entry,
     sublist added entries
     /\ (append_entries_to_csv (Some (write_rows rows)) entries).2 = length added
     /\ (append_entries_to_csv (Some (write_rows rows)) entries).1 ≫= csv_reader
        = Some (rows ++ (row_of <$> added)))
  /\ (exists added : list Entry,
        sublist added entries
        /\ (append_entries_to_csv None entries).2 = length added
        /\ (append_entries_to_csv None entries).1 ≫= csv_reader
           = Some (row_of <$> added))
  /\ (forall e : Entry, length (row_of e) = 4).
Proof.
  split; [|split].
  - destruct (append_entries_added (Some (write_rows rows)) entries)
      as (added & Hsub & Heq).
    exists added. rewrite Heq.
    change (file_text (Some (write_rows rows))) with (write_rows rows).
    cbn [fst snd mbind option_bind].
    split; [done|]. split; [done|].
    by rewrite <- write_rows_app, csv_reader_write_rows.
  - destruct (append_entries_added None entries)
      as (added & Hsub & Heq).
    exists added. rewrite Heq. change (file_text None) with "".
    cbn [fst snd mbind option_bind].
    split; [done|]. split; [done|].
    by rewrite app_nil_l, csv_reader_write_rows.
  - by intros [[[date domain] title] link].
Qed.

(** *** When the comparison does find a record *)

Lemma rstrip_nl_line (s : string) :
  no_line_break s = true -> rstrip_nl (s +:+ String LF "") = s.
Proof.
  induction s as [|a s IH]; intros Hs; [done|].
  simpl in Hs. apply andb_true_iff in Hs as [Ha Hs].
  apply andb_true_iff in Ha as [_ Hlf].
  apply negb_true_iff, bool_decide_eq_false in Hlf.
  rewrite app_cons. cbn [rstrip_nl]. rewrite (IH Hs).
  destruct s; [|done]. by rewrite decide_False.
Qed.

Lemma readlines_go_lf_line (s : string) :
  no_line_break s = true ->
  forall cur rest,
    readlines_go cur (s +:+ String LF rest)
    = (String.rev cur +:+ s +:+ String LF "") :: readlines rest.
Proof.
  induction s as [|a s IH]; intros Hs cur rest.
  - rewrite app_nil_l, readlines_go_cons, decide_True by done.
    by rewrite rev_cons, app_nil_l.
  - simpl in Hs. apply andb_true_iff in Hs as [Ha Hs].
    apply andb_true_iff in Ha as [Hcr Hlf].
    apply negb_true_iff, bool_decide_eq_false in Hcr, Hlf.
    rewrite app_cons, readlines_go_cons, !decide_False by done.
    rewrite IH by done. by rewrite rev_cons, app_snoc.
Qed.

Lemma no_line_break_canonical_line (e : Entry) :
  entry_no_line_break e = true -> no_line_break (canonical_line e) = true.
Proof.
  destruct e as [[[date domain] title] link]. unfold entry_no_line_break.
  intros H. apply andb_true_iff in H as [H Hl].
  apply andb_true_iff in H as [H Ht]. apply andb_true_iff in H as [Hd Ho].
  unfold canonical_line, join, quoted.
  rewrite !no_line_break_app. cbn [no_line_break].
  rewrite !no_line_break_app, no_line_break_double_quotes.
  rewrite Hd, Ho, Ht, Hl. done.
Qed.

Lemma readlines_canonical_log (entries : list Entry) :
  Forall (fun e => entry_no_line_break e = true) entries ->
  readlines (canonical_log entries)
  = (fun e => canonical_line e +:+ String LF "") <$> entries.
Proof.
  induction 1 as [|e entries He _ IH]; [done|].
  cbn [canonical_log foldr fmap list_fmap]. fold (canonical_log entries).
  unfold readlines at 1.
  rewrite readlines_go_lf_line by (by apply no_line_break_canonical_line).
  by rewrite IH.
Qed.

Lemma elem_of_loaded_lines (lines : list string) (x : string) :
  forall acc : gset string,
    x ∈ foldl (fun existing line => existing ∪ {[ rstrip_nl line ]}) acc lines
    <-> x ∈ acc \/ exists line, line ∈ lines /\ x = rstrip_nl line.
Proof.
  induction lines as [|l lines IH]; intros acc.
  - cbn. split; [by left|]. intros [H|(line & H & _)]; [done|inversion H].
  - cbn [foldl]. rewrite IH, elem_of_union, elem_of_singleton. split.
    + intros [[H| ->]|(line & H & ->)]; [by left|right..].
      * exists l. split; [left|done].
      * exists line. split; [by right|done].
    + intros [H|(line & [->|H]%elem_of_cons & ->)]; [by left; left|by left; right|].
      right. by exists line.
Qed.

(** The lines the program knows of a file are the lines of the file with
    their trailing line feeds removed; a missing file has none. *)
Lemma elem_of_load_existing_lines (file : option string) (x : string) :
  x ∈ load_existing_lines file
  <-> exists line, line ∈ readlines (file_text file) /\ x = rstrip_nl line.
Proof.
  destruct file as [text|]; cbn [load_existing_lines file_text default].
  - rewrite elem_of_loaded_lines. split; [|by right].
    intros [H|H]; [|done]. by apply not_elem_of_empty in H.
  - split; [by intros H%not_elem_of_empty|]. by intros (line & H & _); inversion H.
Qed.

(** Against a log that holds the comparison lines themselves, each ended
    by a line feed, the comparison works: appending records of the log
    writes nothing and returns 0.  (The fields must hold no CR or LF, so
    that every comparison line is one line of the file.) *)
Theorem append_finds_canonical_lines (logged entries : list Entry) :
  Forall (fun e => entry_no_line_break e = true) logged ->
  entries ⊆ logged ->
  append_entries_to_csv (Some (canonical_log logged)) entries
  = (Some (canonical_log logged), 0).
Proof.
  intros Hplain Hsub. unfold append_entries_to_csv.
  rewrite append_loop_known; [done|].
  intros e He. cbn [existing_lines].
  apply elem_of_load_existing_lines.
  change (file_text (Some (canonical_log logged))) with (canonical_log logged).
  rewrite readlines_canonical_log by done.
  exists (canonical_line e +:+ String LF ""). split.
  - apply list_elem_of_fmap. exists e. split; [done|]. by apply Hsub.
  - symmetry. apply rstrip_nl_line, no_line_break_canonical_line.
    rewrite Forall_forall in Hplain. by apply Hplain, Hsub.
Qed.

Lemma append_finds_canonical_lines_witness :
  Forall (fun e => entry_no_line_break e = true) [plain_entry]
  /\ [plain_entry] ⊆ [plain_entry]
  /\ append_entries_to_csv (Some (canonical_log [plain_entry])) [plain_entry]
     = (Some (canonical_log [plain_entry]), 0).
Proof.
  assert (Forall (fun e => entry_no_line_break e = true) [plain_entry]) as H1.
  { by repeat constructor. }
  assert ([plain_entry] ⊆ [plain_entry]) as H2 by done.
  split; [exact H1|]. split; [exact H2|].
  exact (append_finds_canonical_lines [plain_entry] [plain_entry] H1 H2).
Defined.

(** *** Distinct records are not confused *)

Lemma split_at_comma (s : string) :
  forall s' x x',
    comma_free s = true -> comma_free s' = true ->
    s +:+ String COMMA x = s' +:+ String COMMA x' -> s = s' /\ x = x'.
Proof.
  induction s as [|a s IH]; intros [|b s'] x x' Hs Hs' Heq.
  - rewrite !app_nil_l in Heq. by inversion Heq.
  - rewrite app_nil_l, app_cons in Heq. inversion Heq; subst.
    cbn in Hs'. by rewrite bool_decide_eq_true_2 in Hs'.
  - rewrite app_nil_l, app_cons in Heq. inversion Heq; subst.
    cbn in Hs. by rewrite bool_decide_eq_true_2 in Hs.
  - rewrite !app_cons in Heq. inversion Heq; subst.
    cbn in Hs, Hs'. apply andb_true_iff in Hs as [_ Hs], Hs' as [_ Hs'].
    destruct (IH _ _ _ Hs Hs' H1) as [-> ->]. done.
Qed.

(** A doubled title ends at the first quote that stands alone. *)
Lemma double_quotes_split (t : string) :
  forall t' c c' x x',
    c ≠ DQUOTE -> c' ≠ DQUOTE ->
    double_quotes t +:+ String DQUOTE (String c x)
    = double_quotes t' +:+ String DQUOTE (String c' x') ->
    t = t' /\ String c x = String c' x'.
Proof.
  induction t as [|a t IH]; intros [|b t'] c c' x x' Hc Hc' Heq.
  - cbn [double_quotes] in Heq. rewrite !app_nil_l in Heq. by inversion Heq.
  - cbn [double_quotes] in Heq. rewrite app_nil_l in Heq.
    destruct (decide (b = DQUOTE)) as [->|Hb];
      rewrite ?app_cons in Heq; inversion Heq; subst; done.
  - cbn [double_quotes] in Heq. rewrite app_nil_l in Heq.
    destruct (decide (a = DQUOTE)) as [->|Ha];
      rewrite ?app_cons in Heq; inversion Heq; subst; done.
  - cbn [double_quotes] in Heq.
    destruct (decide (a = DQUOTE)) as [->|Ha], (decide (b = DQUOTE)) as [->|Hb];
      rewrite ?app_cons in Heq; inversion Heq; subst; try done.
    + destruct (IH _ _ _ _ _ Hc Hc' H0) as [-> ?]. done.
    + destruct (IH _ _ _ _ _ Hc Hc' H1) as [-> ?]. done.
Qed.

Lemma app_snoc_inj_l (s t : string) (a b : ascii) :
  s +:+ String a "" = t +:+ String b "" -> s = t.
Proof.
  revert t. induction s as [|c s IH]; intros [|d t] H.
  - done.
  - rewrite app_nil_l, app_cons in H. inversion H as [[Hc Ht]]. by destruct t.
  - rewrite app_nil_l, app_cons in H. inversion H as [[Hc Hs]]. by destruct s.
  - rewrite !app_cons in H. inversion H. f_equal. eauto.
Qed.

(** The comparison line tells records apart, as long as date and domain
    hold no comma. *)
Lemma canonical_line_inj (date domain title link date' domain' title' link' : string) :
  comma_free date = true -> comma_free domain = true ->
  comma_free date' = true -> comma_free domain' = true ->
  canonical_line (date, domain, title, link)
  = canonical_line (date', domain', title', link') ->
  (date, domain, title, link) = (date', domain', title', link').
Proof.
  intros Hd Ho Hd' Ho' Heq. unfold canonical_line, join, quoted in Heq.
  change ("," +:+ ?x) with (String COMMA x) in Heq.
  apply split_at_comma in Heq as [-> Heq]; [|done..].
  apply split_at_comma in Heq as [-> Heq]; [|done..].
  rewrite !app_cons, !app_assoc, !app_cons, !app_nil_l in Heq.
  inversion Heq as [Heq']. clear Heq.
  apply double_quotes_split in Heq' as [-> Heq']; [|done..].
  inversion Heq' as [Hl]. by apply app_snoc_inj_l in Hl as ->.
Qed.

Lemma append_loop_writes_all (entries : list Entry) :
  forall st : AppendState,
    NoDup (canonical_line <$> entries) ->
    (forall e, e ∈ entries -> canonical_line e ∉ existing_lines st) ->
    log (append_loop st entries) = log st +:+ write_rows (row_of <$> entries)
    /\ new_count (append_loop st entries) = new_count st + length entries.
Proof.
  induction entries as [|e entries IH]; intros st Hnd Hnew.
  - cbn. by rewrite app_nil_r, Nat.add_0_r.
  - unfold append_loop. cbn [foldl]. fold (append_loop (append_step st e) entries).
    cbn [fmap list_fmap] in Hnd. apply NoDup_cons in Hnd as [Hhead Hnd].
    destruct (append_step_cases st e) as [[Hin _] | [_ Heq]].
    { destruct (Hnew e); [by left|done]. }
    rewrite Heq. destruct (IH (append_step st e) Hnd) as [Hlog Hcount].
    { intros e' He'. rewrite Heq. cbn [existing_lines].
      intros [Hin|Hin%elem_of_singleton]%elem_of_union.
      - apply (Hnew e'); [by right|done].
      - apply Hhead. rewrite <- Hin. by apply list_elem_of_fmap_2. }
    rewrite Heq in Hlog, Hcount. rewrite Hlog, Hcount. cbn [log new_count fmap list_fmap write_rows foldr length].
    fold (write_rows (row_of <$> entries)). rewrite app_assoc. split; [done|lia].
Qed.

(** A batch of different records whose dates and domains hold no comma is
    written to a new log in full, in its order, and counted in full:
    within one call no record is taken for another. *)
Theorem append_writes_all_distinct (entries : list Entry) :
  NoDup entries ->
  Forall (fun e => comma_free_entry e = true) entries ->
  append_entries_to_csv None entries
  = (Some (write_rows (row_of <$> entries)), length entries).
Proof.
  intros Hnd Hcf. unfold append_entries_to_csv.
  destruct (append_loop_writes_all entries
              {| log := file_text None; existing_lines := load_existing_lines None;
                 new_count := 0 |}) as [Hlog Hcount].
  - apply NoDup_fmap_2_strong; [|done].
    intros [[[d o] t] l] [[[d' o'] t'] l'] He He' Heq.
    rewrite Forall_forall in Hcf.
    pose proof (Hcf _ He) as H1. pose proof (Hcf _ He') as H2.
    unfold comma_free_entry in H1, H2. cbn in H1, H2.
    apply andb_true_iff in H1 as [? ?], H2 as [? ?].
    by apply canonical_line_inj.
  - intros e _. cbn. apply not_elem_of_empty.
  - rewrite Hlog, Hcount. done.
Qed.

Lemma append_writes_all_distinct_witness :
  NoDup [plain_entry; ("2024-01-01", "example.com", "Other", "https://example.com/b")]
  /\ Forall (fun e => comma_free_entry e = true)
       [plain_entry; ("2024-01-01", "example.com", "Other", "https://example.com/b")]
  /\ append_entries_to_csv None
       [plain_entry; ("2024-01-01", "example.com", "Other", "https://example.com/b")]
     = (Some (write_rows (row_of <$>
          [plain_entry; ("2024-01-01", "example.com", "Other", "https://example.com/b")])),
        length [plain_entry; ("2024-01-01", "example.com", "Other", "https://example.com/b")]).
Proof.
  assert (NoDup [plain_entry;
                 ("2024-01-01", "example.com", "Other", "https://example.com/b")]) as H1.
  { apply NoDup_cons. split; [|apply NoDup_singleton].
    intros H%list_elem_of_singleton. discriminate H. }
  assert (Forall (fun e => comma_free_entry e = true)
            [plain_entry;
             ("2024-01-01", "example.com", "Other", "https://example.com/b")]) as H2.
  { by repeat constructor. }
  split; [exact H1|]. split; [exact H2|].
  exact (append_writes_all_distinct _ H1 H2).
Defined.

(** The condition on commas is needed: these two records differ, and the
    comparison line is the same. *)
Lemma canonical_line_confuses_commas :
  (("a,b", "c", "t", "l") : Entry) ≠ ("a", "b,c", "t", "l")
  /\ canonical_line ("a,b", "c", "t", "l") = canonical_line ("a", "b,c", "t", "l").
Proof. split; [discriminate|reflexivity]. Qed.

(** *** A log written by the program is not recognised *)

Lemma readlines_go_crlf_line (s : string) :
  no_line_break s = true ->
  forall cur rest,
    readlines_go cur (s +:+ CRLF +:+ rest)
    = (String.rev cur +:+ s +:+ CRLF) :: readlines rest.
Proof.
  induction s as [|a s IH]; intros Hs cur rest.
  - rewrite app_nil_l. unfold CRLF. rewrite !app_cons, app_nil_l, readlines_go_cons.
    rewrite decide_False, !decide_True by done.
    by rewrite !rev_cons, !app_assoc.
  - simpl in Hs. apply andb_true_iff in Hs as [Ha Hs].
    apply andb_true_iff in Ha as [Hcr Hlf].
    apply negb_true_iff, bool_decide_eq_false in Hcr, Hlf.
    rewrite app_cons, readlines_go_cons, !decide_False by done.
    rewrite IH by done. by rewrite rev_cons, app_snoc.
Qed.

Lemma no_line_break_joined (row : list string) :
  row_no_line_break row = true ->
  no_line_break (join "," (csv_field <$> row)) = true.
Proof.
  induction row as [|t row IH]; [done|]. intros H.
  cbn [row_no_line_break forallb] in H. apply andb_true_iff in H as [Ht Hrow].
  destruct row as [|t' row].
  - cbn. by rewrite no_line_break_csv_field.
  - change (join "," (csv_field <$> (t :: t' :: row)))
      with (csv_field t +:+ "," +:+ join "," (csv_field <$> (t' :: row))).
    rewrite !no_line_break_app, no_line_break_csv_field, Ht, (IH Hrow). done.
Qed.

Lemma no_line_break_csv_record (row : list string) :
  row_no_line_break row = true -> no_line_break (csv_record row) = true.
Proof.
  intros H. destruct row as [|t row]; [done|].
  destruct t as [|a t]; [destruct row; [done|]|]; by apply no_line_break_joined.
Qed.

Lemma readlines_write_rows (rows : list (list string)) :
  Forall (fun row => row_no_line_break row = true) rows ->
  readlines (write_rows rows) = (fun row => csv_record row +:+ CRLF) <$> rows.
Proof.
  induction 1 as [|row rows Hrow _ IH]; [done|].
  cbn [write_rows foldr fmap list_fmap]. fold (write_rows rows).
  unfold writerow, readlines at 1. rewrite app_assoc.
  rewrite readlines_go_crlf_line by (by apply no_line_break_csv_record).
  by rewrite IH.
Qed.

(** Two runs of the loop whose known lines differ by lines that no record
    can have write the same rows and count the same. *)
Lemma append_loop_ignores (other : gset string) (entries : list Entry) :
  (forall e, canonical_line e ∉ other) ->
  forall st1 st2 : AppendState,
    existing_lines st1 = existing_lines st2 ∪ other ->
    exists added,
      log (append_loop st1 entries) = log st1 +:+ write_rows (row_of <$> added)
      /\ log (append_loop st2 entries) = log st2 +:+ write_rows (row_of <$> added)
      /\ new_count (append_loop st1 entries) = new_count st1 + length added
      /\ new_count (append_loop st2 entries) = new_count st2 + length added.
Proof.
  intros Hother. induction entries as [|e entries IH]; intros st1 st2 Hex.
  - exists []. cbn. by rewrite !app_nil_r, !Nat.add_0_r.
  - unfold append_loop. cbn [foldl].
    fold (append_loop (append_step st1 e) entries).
    fold (append_loop (append_step st2 e) entries).
    destruct (append_step_cases st1 e) as [[Hin1 Heq1] | [Hnin1 Heq1]],
             (append_step_cases st2 e) as [[Hin2 Heq2] | [Hnin2 Heq2]].
    + rewrite Heq1, Heq2. exact (IH st1 st2 Hex).
    + rewrite Hex in Hin1. apply elem_of_union in Hin1 as [?|?]; [done|].
      by destruct (Hother e).
    + destruct Hnin1. rewrite Hex. by apply elem_of_union_l.
    + destruct (IH (append_step st1 e) (append_step st2 e)) as (added & H1 & H2 & H3 & H4).
      { rewrite Heq1, Heq2. cbn [existing_lines]. rewrite Hex.
        rewrite <- !(assoc_L (∪)). f_equal. apply (comm_L (∪)). }
      exists (e :: added). rewrite H1, H2, H3, H4, Heq1, Heq2.
      cbn [log new_count fmap list_fmap write_rows foldr length].
      fold (write_rows (row_of <$> added)). rewrite !app_assoc.
      repeat split; lia.
Qed.

(** A log made of rows that [csv.writer] wrote (no CR or LF inside the
    fields) is never recognised: whatever the batch, the call writes after
    it exactly what it would write to a missing file, and returns the same
    number.  Every line read back from such a log ends with CR, and no
    comparison line does. *)
Theorem append_ignores_written_log (rows : list (list string))
    (entries : list Entry) :
  Forall (fun row => row_no_line_break row = true) rows ->
  exists (text : string) (n : nat),
    append_entries_to_csv None entries = (Some text, n)
    /\ append_entries_to_csv (Some (write_rows rows)) entries
       = (Some (write_rows rows +:+ text), n).
Proof.
  intros Hrows. unfold append_entries_to_csv.
  destruct (append_loop_ignores (load_existing_lines (Some (write_rows rows))) entries)
    with (st1 := {| log := file_text (Some (write_rows rows));
                    existing_lines := load_existing_lines (Some (write_rows rows));
                    new_count := 0 |})
         (st2 := {| log := file_text None; existing_lines := load_existing_lines None;
                    new_count := 0 |})
    as (added & H1 & H2 & H3 & H4).
  - intros e Hin. apply elem_of_load_existing_lines in Hin as (line & Hline & Heq).
    change (file_text (Some (write_rows rows))) with (write_rows rows) in Hline.
    rewrite readlines_write_rows in Hline by done.
    apply list_elem_of_fmap in Hline as (row & -> & _).
    rewrite rstrip_nl_crlf in Heq.
    destruct (canonical_line_ends_with_quote e) as [body Hbody].
    rewrite Hbody in Heq. by apply app_snoc_inj in Heq.
  - cbn [existing_lines load_existing_lines]. by rewrite (left_id_L ∅ (∪)).
  - eexists _, _. rewrite H1, H2, H3, H4. cbn [log new_count file_text default].
    split; [reflexivity|]. by rewrite app_nil_l.
Qed.

Lemma append_ignores_written_log_witness :
  Forall (fun row => row_no_line_break row = true) [row_of plain_entry]
  /\ exists (text : string) (n : nat),
      append_entries_to_csv None [plain_entry] = (Some text, n)
      /\ append_entries_to_csv (Some (write_rows [row_of plain_entry])) [plain_entry]
         = (Some (write_rows [row_of plain_entry] +:+ text), n).
Proof.
  assert (Forall (fun row => row_no_line_break row = true) [row_of plain_entry]) as H.
  { by repeat constructor. }
  split; [exact H|].
  exact (append_ignores_written_log [row_of plain_entry] [plain_entry] H).
Defined.

End LogExtras.

(** ** Further properties of the extractors *)

Module HarvestExtras.
Import Text TextFacts Csv Harvest HarvestFacts Vocabulary Cli Samples.

Section WithEnv.
Context `{E : Env}.

(** *** The feed path, exactly *)

Lemma rss_step_pairs (d : string) (acc : list Entry)
    (entry : FeedEntry TimeStruct) (st : St) :
  exists added st',
    rss_step d acc entry st = (inr (acc ++ added), st')
    /\ entry_key <$> added = option_list (feed_pair entry)
    /\ Forall (fun e => e.1.1.2 = d) added
    /\ stdout st' = stdout st /\ stderr st' = stderr st.
Proof.
  unfold rss_step, feed_pair.
  destruct (bool_decide (strip (default "" (e_title entry)) = "")
            || bool_decide (strip (default "" (e_link entry)) = "")).
  - exists [], st. rewrite (right_id_L [] (++)). repeat split; constructor.
  - unfold today_iso, with_world, mbind, M_bind, bind.
    destruct (date_today (world st)) as [today w].
    eexists [_], _. split; [reflexivity|]. repeat split. by repeat constructor.
Qed.

Lemma for_each_rss_pairs (d : string) (items : list (FeedEntry TimeStruct)) :
  forall (acc : list Entry) (st : St),
  exists added st',
    for_each (rss_step d) acc items st = (inr (acc ++ added), st')
    /\ entry_key <$> added = omap feed_pair items
    /\ Forall (fun e => e.1.1.2 = d) added
    /\ stdout st' = stdout st /\ stderr st' = stderr st.
Proof.
  induction items as [|entry items IH]; intros acc st.
  - exists [], st. rewrite (right_id_L [] (++)). repeat split; constructor.
  - destruct (rss_step_pairs d acc entry st) as (a1 & st1 & H1 & Hk1 & Hd1 & Ho1 & He1).
    destruct (IH (acc ++ a1) st1) as (a2 & st2 & H2 & Hk2 & Hd2 & Ho2 & He2).
    exists (a1 ++ a2), st2. cbn [for_each].
    rewrite (bind_inr _ _ _ _ _ H1), H2, (assoc_L (++)).
    split; [done|]. split.
    { rewrite fmap_app, Hk1, Hk2. cbn [omap list_omap].
      by destruct (feed_pair entry). }
    split; [by apply Forall_app|]. split; congruence.
Qed.

(** [harvest_rss] returns, in the order of the feed, one record for each
    of the first fifty entries that has a title and a link after
    stripping, with exactly that title and link and with the domain of the
    outlet; entries after the fiftieth are never looked at, repeated
    entries are kept, and nothing is printed. *)
Theorem harvest_rss_keeps_feed_order (url : string) (resp : Response) (st : St) :
  exists entries st',
    harvest_rss url resp st = (inr entries, st')
    /\ entry_key <$> entries
       = omap feed_pair (take MAX_ITEMS_PER_SOURCE (feedparser_entries (content resp)))
    /\ Forall (fun e => e.1.1.2 = domain_from_url url) entries
    /\ stdout st' = stdout st /\ stderr st' = stderr st.
Proof.
  unfold harvest_rss.
  destruct (feedparser_entries (content resp)) as [|entry parsed] eqn:Hp.
  - exists [], st. repeat split; constructor.
  - destruct (for_each_rss_pairs (domain_from_url url)
                (take MAX_ITEMS_PER_SOURCE (entry :: parsed)) [] st)
      as (added & st' & Hrun & Hk & Hd & Ho & He).
    by exists added, st'.
Qed.

(** *** The HTML path: no record twice *)

Lemma omap_resolved_cons (url title href link : string)
    (candidates : list (string * string)) :
  urljoin url href = inr link ->
  omap (resolved_key url) ((title, href) :: candidates)
  = (title, link) :: omap (resolved_key url) candidates.
Proof.
  intros Hjoin. cbn [omap list_omap]. unfold resolved_key at 1.
  cbn [fst snd]. by rewrite Hjoin.
Qed.

Lemma normalize_loop_keys (url today d : string)
    (candidates : list (string * string)) :
  forall (seen : gset (string * string)) (entries : list Entry)
         (acc : gset (string * string) * list Entry),
    seen = list_to_set (entry_key <$> entries) ->
    NoDup (entry_key <$> entries) ->
    normalize_loop url today d (seen, entries) candidates = inr acc ->
    NoDup (entry_key <$> acc.2)
    /\ (forall k,
          k ∈ entry_key <$> acc.2
          <-> k ∈ entry_key <$> entries \/ k ∈ omap (resolved_key url) candidates)
    /\ (Forall (fun e => e.1.1.1 = today /\ e.1.1.2 = d) entries ->
        Forall (fun e => e.1.1.1 = today /\ e.1.1.2 = d) acc.2).
Proof.
  induction candidates as [|[title href] candidates IH];
    intros seen entries acc Hseen Hnd Hrun.
  - cbn in Hrun. injection Hrun as <-. cbn. split; [done|]. split; [|done].
    intros k. split; [by left|]. intros [H|H]; [done|inversion H].
  - cbn [normalize_loop normalize_step] in Hrun.
    destruct (urljoin url href) as [msg|link] eqn:Hjoin; [done|].
    rewrite (omap_resolved_cons _ _ _ _ _ Hjoin).
    destruct (decide ((title, link) ∈ seen)) as [Hin|Hnin].
    + destruct (IH seen entries acc Hseen Hnd Hrun) as (Hnd' & Hkeys & Hcommon).
      split; [done|]. split; [|done]. intros k. rewrite Hkeys.
      rewrite elem_of_cons.
      split; [intros [H|H]; auto|].
      intros [H|[->|H]]; auto. left.
      rewrite Hseen in Hin. by apply elem_of_list_to_set in Hin.
    + destruct (IH (seen ∪ {[(title, link)]})
                  (entries ++ [(today, d, title, link)]) acc)
        as (Hnd' & Hkeys & Hcommon).
      { rewrite fmap_app, list_to_set_app_L, Hseen. cbn.
        by rewrite (right_id_L ∅ (∪)). }
      { rewrite fmap_app. apply NoDup_app. split; [done|]. split.
        - intros k Hk ->%list_elem_of_singleton. apply Hnin.
          rewrite Hseen. by apply elem_of_list_to_set.
        - apply NoDup_singleton. }
      { exact Hrun. }
      split; [done|]. split.
      * intros k. rewrite Hkeys, fmap_app, elem_of_app.
        cbn [fmap list_fmap]. rewrite list_elem_of_singleton, elem_of_cons.
        change (entry_key (today, d, title, link)) with (title, link).
        tauto.
      * intros Hall. apply Hcommon, Forall_app. split; [done|]. by repeat constructor.
Qed.

(** Whenever [harvest_html] returns, it never returns the same title and
    link twice; the titles and links it returns are exactly those of the
    first fifty candidates, each link resolved against the URL of the
    outlet (so a candidate after the fiftieth is never used, even when
    earlier ones were repeats); all records carry the date the clock gave
    and the domain of the outlet. *)
Theorem harvest_html_no_repeats (url : string) (resp : Response) (st st' : St)
    (entries : list Entry) :
  harvest_html url resp st = (inr entries, st') ->
  NoDup (entry_key <$> entries)
  /\ (forall k, k ∈ entry_key <$> entries
        <-> k ∈ omap (resolved_key url)
              (take MAX_ITEMS_PER_SOURCE (html_candidates (html_parser (text resp)))))
  /\ exists today,
      today_iso st = (inr today, st')
      /\ Forall (fun e => e.1.1.1 = today /\ e.1.1.2 = domain_from_url url) entries.
Proof.
  intros (today & Htoday & Hn)%harvest_html_returned.
  unfold normalize_and_limit in Hn.
  destruct (normalize_loop url today (domain_from_url url) (∅, [])
              (take MAX_ITEMS_PER_SOURCE (html_candidates (html_parser (text resp)))))
    as [msg|[seen es]] eqn:Hloop; [done|].
  injection Hn as ->.
  destruct (normalize_loop_keys url today (domain_from_url url)
              (take MAX_ITEMS_PER_SOURCE (html_candidates (html_parser (text resp))))
              ∅ [] (seen, entries)) as (Hnd & Hkeys & Hcommon);
    [done|constructor|exact Hloop|].
  split; [exact Hnd|]. split.
  - intros k. rewrite Hkeys. split; [|by right].
    intros [H|H]; [inversion H|done].
  - exists today. split; [done|]. apply Hcommon. constructor.
Qed.

(** *** Fetching *)

(** [fetch_url] never raises.  It returns the response exactly when
    [requests.get] returned one whose status is outside 400..599, and then
    prints nothing; in every other case it returns [None] and prints one
    warning, which names the URL, on the error output.  The standard
    output is never written. *)
Theorem fetch_url_outcome (url : string) (st : St) :
  match requests_get url (world st) with
  | (inr resp, w) =>
      if status_ok resp
      then fetch_url url st = (inr (Some resp), set_world w st)
      else exists msg,
          fetch_url url st
          = (inr None, log_warning (fetch_warning url (HTTPError msg)) (set_world w st))
  | (inl e, w) =>
      fetch_url url st = (inr None, log_warning (fetch_warning url e) (set_world w st))
  end.
Proof.
  unfold fetch_url, try_except, fetch_body, requests_get_m, mbind, M_bind, bind.
  destruct (requests_get url (world st)) as [[e|resp] w]; [done|].
  unfold status_ok, raise_for_status.
  destruct (Nat.leb_spec 400 (status_code resp)),
           (Nat.ltb_spec (status_code resp) 500),
           (Nat.leb_spec 500 (status_code resp)),
           (Nat.ltb_spec (status_code resp) 600);
    cbn; try lia; try done; by eexists.
Qed.

Lemma fetch_body_prints_nothing (url : string) (st st1 : St)
    (r : Exn + option Response) :
  fetch_body url st = (r, st1) -> stdout st1 = stdout st /\ stderr st1 = stderr st.
Proof.
  unfold fetch_body, requests_get_m, raise_for_status, mbind, M_bind, bind.
  destruct (requests_get url (world st)) as [[e|resp] w].
  - by intros [= <- <-].
  - destruct ((400 <=? status_code resp) && (status_code resp <? 500));
      [by intros [= <- <-]|].
    destruct ((500 <=? status_code resp) && (status_code resp <? 600));
      by intros [= <- <-].
Qed.

Lemma fetch_url_printed (url : string) (st : St) :
  exists r st',
    fetch_url url st = (inr r, st')
    /\ stdout st' = stdout st
    /\ length (stderr st')
       = length (stderr st) + (match r with Some _ => 0 | None => 1 end)
    /\ (r = None -> exists line, stderr st' = stderr st ++ [line]).
Proof.
  destruct (fetch_body url st) as [[e|r] st1] eqn:Hbody;
    destruct (fetch_body_prints_nothing _ _ _ _ Hbody) as [Ho He].
  - eexists None, _. split; [by apply fetch_url_fail|]. cbn.
    rewrite length_app, Ho, He. cbn. split; [done|]. split; [lia|]. by eexists.
  - pose proof (fetch_url_ok _ _ _ _ Hbody) as Hok.
    exists r, st1. split; [done|]. split; [done|].
    assert (exists resp, r = Some resp) as [resp ->].
    { revert Hbody.
      unfold fetch_body, requests_get_m, raise_for_status, mbind, M_bind, bind.
      destruct (requests_get url (world st)) as [[e|resp] w]; [done|].
      destruct ((400 <=? status_code resp) && (status_code resp <? 500)); [done|].
      destruct ((500 <=? status_code resp) && (status_code resp <? 600)); [done|].
      intros [= <- _]. by eexists. }
    split; [rewrite He; lia|done].
Qed.

(** *** One outlet, all outlets *)

Lemma harvest_rss_printed (url : string) (resp : Response) (st : St) :
  exists entries st',
    harvest_rss url resp st = (inr entries, st')
    /\ length entries <= MAX_ITEMS_PER_SOURCE
    /\ stdout st' = stdout st /\ stderr st' = stderr st.
Proof.
  destruct (harvest_rss_spec url resp st) as (es & st' & H & Hlen & _).
  exists es, st'. split; [done|]. split; [done|].
  revert H. unfold harvest_rss.
  destruct (feedparser_entries (content resp)) as [|entry parsed].
  - by intros [= <- <-].
  - destruct (for_each_rss_pairs (domain_from_url url)
                (take MAX_ITEMS_PER_SOURCE (entry :: parsed)) [] st)
      as (added & st2 & Hrun & _ & _ & Ho & He).
    rewrite Hrun. by intros [= <- <-].
Qed.

(** What the loop over the outlets needs of one outlet. *)
Lemma harvest_one_url_printed (url : string) (dry_run : bool) (st : St) :
  exists st',
    (exists entries,
       harvest_one_url url dry_run st = (inr entries, st')
       /\ length entries <= MAX_ITEMS_PER_SOURCE
       /\ printed st' = printed st + 1)
    \/ (exists msg,
          harvest_one_url url dry_run st = (inl (ValueError msg), st')
          /\ printed st' = printed st).
Proof.
  unfold harvest_one_url, printed.
  destruct (fetch_url_printed url st) as (r & st1 & Hf & Ho1 & He1 & _).
  rewrite (bind_inr _ _ _ _ _ Hf). destruct r as [resp|].
  - destruct (harvest_rss_printed url resp st1) as (rss & st2 & Hrss & Hlen & Ho2 & He2).
    rewrite (bind_inr _ _ _ _ _ Hrss). destruct rss as [|e rss].
    + destruct (harvest_html_outcome url resp st2)
        as (st3 & Ho3 & He3 & [(html & Hh & Hlen3)|(msg & Hh)]).
      * rewrite (bind_inr _ _ _ _ _ Hh). eexists. left. exists html.
        split; [reflexivity|]. split; [done|]. cbn.
        rewrite length_app, Ho3, He3, Ho2, He2, Ho1, He1. cbn. lia.
      * exists st3. right. exists msg. unfold mbind, M_bind, bind.
        rewrite Hh. split; [done|]. rewrite Ho3, He3, Ho2, He2, Ho1, He1. lia.
    + eexists. left. exists (e :: rss). split; [reflexivity|]. split; [done|].
      cbn [stdout stderr]. rewrite length_app, Ho2, He2, Ho1, He1. cbn. lia.
  - eexists. left. exists []. split; [reflexivity|]. split; [cbn; lia|].
    rewrite Ho1, He1. lia.
Qed.


Lemma outlets_loop_bound (dry_run : bool) (urls : list string) :
  forall (acc : list Entry) (st : St),
  exists st',
    (exists entries,
       for_each (outlet_step dry_run) acc urls st = (inr (acc ++ entries), st')
       /\ length entries <= MAX_ITEMS_PER_SOURCE * length urls
       /\ printed st' = printed st + length urls)
    \/ (exists msg,
          for_each (outlet_step dry_run) acc urls st
          = (inl (ValueError msg), st')
          /\ printed st <= printed st' < printed st + length urls).
Proof.
  induction urls as [|url urls IH]; intros acc st.
  - exists st. left. exists []. rewrite (right_id_L [] (++)). cbn.
    split; [done|]. split; lia.
  - cbn [for_each].
    destruct (harvest_one_url_printed url dry_run st)
      as (st1 & [(es & H1 & Hlen1 & Hp1)|(msg & H1 & Hp1)]).
    + rewrite (bind_inr _ _ _ _ _ (outlet_step_returns _ acc _ _ _ _ H1)).
      destruct (IH (acc ++ es) st1)
        as (st2 & [(es' & H2 & Hlen2 & Hp2)|(msg & H2 & Hp2)]); exists st2.
      * left. exists (es ++ es'). rewrite H2, (assoc_L (++)). split; [done|].
        rewrite length_app. cbn [length]. split; lia.
      * right. exists msg. split; [done|]. cbn [length]. lia.
    + exists st1. right. exists msg. unfold mbind, M_bind, bind.
      rewrite (outlet_step_raises _ acc _ _ _ _ H1). split; [done|].
      cbn [length]. lia.
Qed.


(** An outlet file without a single URL: the run returns no record,
    prints its first line and the error line, and leaves the world as it
    was (nothing is fetched, the clock is not read).  A missing outlet
    file ends the run with the error of [open], after the first line, with
    the world as it was. *)
Theorem harvest_all_outlets_without_urls (text : string) (dry_run : bool) (st : St) :
  outlet_urls_spec text = [] ->
  harvest_all_outlets (Some text) dry_run st
  = (inr [], log_warning "[ERROR] No URLs found in outlets file."
               (log_info ("[INFO] Using outlets file: " +:+ OUTLETS_FILE) st))
  /\ harvest_all_outlets None dry_run st
     = (inl (OSError OUTLETS_FILE),
        log_info ("[INFO] Using outlets file: " +:+ OUTLETS_FILE) st).
Proof.
  intros Hnone. split; [|done].
  unfold harvest_all_outlets, read_outlet_urls.
  unfold outlet_urls_spec in Hnone.
  rewrite OutletClaims.read_outlet_loop. cbn [app]. by rewrite Hnone.
Qed.

(** *** The date of a feed record *)

Lemma first_date_converted (values : list (option TimeStruct)) (today : string) :
  first_date values today = default today (first_converted values).
Proof.
  unfold first_converted.
  induction values as [|[value|] values IH]; [done| |done].
  cbn [first_date omap list_omap mbind option_bind].
  by destruct (struct_isoformat value).
Qed.

Lemma rss_step_date (d : string) (acc : list Entry)
    (entry : FeedEntry TimeStruct) (st : St) :
  exists added st',
    rss_step d acc entry st = (inr (acc ++ added), st')
    /\ Forall (fun e =>
          entry_key e ∈ option_list (feed_pair entry)
          /\ e.1.1.1 = default (date_today (world st)).1
                          (first_converted [published_parsed entry;
                                            updated_parsed entry;
                                            created_parsed entry])) added.
Proof.
  unfold rss_step, feed_pair.
  destruct (bool_decide (strip (default "" (e_title entry)) = "")
            || bool_decide (strip (default "" (e_link entry)) = "")).
  - exists [], st. rewrite (right_id_L [] (++)). split; constructor.
  - unfold today_iso, with_world, mbind, M_bind, bind.
    destruct (date_today (world st)) as [today w].
    eexists [_], _. split; [reflexivity|]. constructor; [|done].
    split; [left|]. cbn [fst]. apply first_date_converted.
Qed.

Lemma for_each_rss_date (d : string) (items : list (FeedEntry TimeStruct)) :
  forall (acc : list Entry) (st : St),
  exists added st',
    for_each (rss_step d) acc items st = (inr (acc ++ added), st')
    /\ Forall (fun e => exists entry w,
          entry ∈ items
          /\ entry_key e ∈ option_list (feed_pair entry)
          /\ e.1.1.1 = default (date_today w).1
                          (first_converted [published_parsed entry;
                                            updated_parsed entry;
                                            created_parsed entry])) added.
Proof.
  induction items as [|entry items IH]; intros acc st.
  - exists [], st. rewrite (right_id_L [] (++)). split; constructor.
  - destruct (rss_step_date d acc entry st) as (a1 & st1 & H1 & Hd1).
    destruct (IH (acc ++ a1) st1) as (a2 & st2 & H2 & Hd2).
    exists (a1 ++ a2), st2. cbn [for_each].
    rewrite (bind_inr _ _ _ _ _ H1), H2, (assoc_L (++)).
    split; [done|]. apply Forall_app. split.
    + eapply Forall_impl; [exact Hd1|]. intros e [Hk Hdate].
      exists entry, (world st). split; [left|done].
    + eapply Forall_impl; [exact Hd2|]. intros e (entry' & w & Hin & Hk & Hdate).
      exists entry', w. split; [by right|done].
Qed.

(** The date of a feed record is the ISO form of the first parsed date of
    its entry that is present and converts, taken in the order published,
    updated, created (a date that fails to convert is passed over, the
    next one is tried); only when there is none it is the date the clock
    gives. *)
Theorem harvest_rss_date_precedence (url : string) (resp : Response) (st : St) :
  exists entries st',
    harvest_rss url resp st = (inr entries, st')
    /\ Forall (fun e => exists entry w,
          entry ∈ feedparser_entries (content resp)
          /\ entry_key e ∈ option_list (feed_pair entry)
          /\ e.1.1.1 = default (date_today w).1
                          (first_converted [published_parsed entry;
                                            updated_parsed entry;
                                            created_parsed entry])) entries.
Proof.
  unfold harvest_rss.
  destruct (feedparser_entries (content resp)) as [|entry parsed] eqn:Hp.
  - exists [], st. split; constructor.
  - destruct (for_each_rss_date (domain_from_url url)
                (take MAX_ITEMS_PER_SOURCE (entry :: parsed)) [] st)
      as (added & st' & Hrun & Hd).
    exists added, st'. split; [done|].
    eapply Forall_impl; [exact Hd|]. intros e (entry' & w & Hin & H).
    exists entry', w. split; [|done]. by apply (subseteq_take MAX_ITEMS_PER_SOURCE).
Qed.

End WithEnv.

(** *** The candidates of a page *)

Lemma candidate_loop_closed (tags : list Node) :
  forall acc : list (string * string),
    foldl candidate_step acc tags = acc ++ omap candidate_of tags.
Proof.
  induction tags as [|tag tags IH]; intros acc.
  - cbn [foldl omap list_omap]. by rewrite (right_id_L [] (++)).
  - cbn [foldl omap list_omap]. rewrite IH.
    unfold candidate_step, candidate_of.
    destruct (find_a_href tag) as [a|]; [|done].
    destruct (bool_decide (get_text_strip a ≠ "")
              && bool_decide (default "" (get_attr "href" a) ≠ "")); [|done].
    by rewrite <- (assoc_L (++)).
Qed.

(** The candidates of a page come one per tag at most, from the first
    link with an href inside the tag: in document order for the article
    tags; for the headline tags all h1 first, then all h2, then all h3.  A
    tag whose first such link has no text, or an empty href, gives no
    candidate, whatever other links it holds. *)
Theorem html_candidates_by_tag (soup : list Node) :
  article_candidates soup = omap candidate_of (find_all soup "article")
  /\ headline_candidates soup
     = omap candidate_of
         (find_all soup "h1" ++ find_all soup "h2" ++ find_all soup "h3")
  /\ (forall tag a,
        find_a_href tag = Some a ->
        get_text_strip a = "" \/ get_attr "href" a = Some "" ->
        candidate_of tag = None)
  /\ (forall tag title href,
        candidate_of tag = Some (title, href) ->
        exists a, a ∈ descendants tag /\ has_name "a" a = true
                  /\ get_attr "href" a = Some href
                  /\ get_text_strip a = title).
Proof.
  split; [|split; [|split]].
  - unfold article_candidates. by rewrite candidate_loop_closed.
  - unfold headline_candidates. cbn [foldl].
    rewrite !candidate_loop_closed, !omap_app. cbn [app].
    by rewrite (assoc_L (++)).
  - intros tag a Hfind Hempty. unfold candidate_of. rewrite Hfind.
    destruct Hempty as [-> | ->]; [done|].
    cbn. by rewrite andb_false_r.
  - intros tag title href. unfold candidate_of, find_a_href.
    destruct (List.find _ (descendants tag)) as [a|] eqn:Hfind; [|done].
    apply find_some in Hfind as [Hin Hprop].
    apply andb_true_iff in Hprop as [Hname Hattr].
    apply bool_decide_eq_true in Hattr as [h Hh].
    rewrite Hh. cbn [default from_option id].
    destruct (bool_decide (get_text_strip a ≠ "") && bool_decide (h ≠ "")); [|done].
    intros [= <- <-]. exists a. by rewrite <- list_elem_of_In in Hin.
Qed.

Lemma harvest_all_outlets_without_urls_witness :
  outlet_urls_spec CliSamples.outlets_without_urls = []
  /\ (harvest_all_outlets (Some CliSamples.outlets_without_urls) false st0
      = (inr [], log_warning "[ERROR] No URLs found in outlets file."
                   (log_info ("[INFO] Using outlets file: " +:+ OUTLETS_FILE) st0))
      /\ harvest_all_outlets None false st0
         = (inl (OSError OUTLETS_FILE),
            log_info ("[INFO] Using outlets file: " +:+ OUTLETS_FILE) st0)).
Proof.
  split; [vm_compute; reflexivity|].
  apply (harvest_all_outlets_without_urls CliSamples.outlets_without_urls false st0).
  vm_compute; reflexivity.
Defined.

(** The sample page with a repeated article: the repeat is left out. *)
Lemma harvest_html_no_repeats_witness :
  html_candidates (html_parser (text twice_response))
  = [("First", "/a"); ("First", "/a"); ("Third", "/c")]
  /\ harvest_html page_url twice_response st0
     = (inr [first_entry;
             ("2024-01-02", "example.com", "Third", "https://example.com/c")],
        st0)
  /\ (NoDup (entry_key <$>
               [first_entry;
                ("2024-01-02", "example.com", "Third", "https://example.com/c")])
      /\ (forall k,
            k ∈ entry_key <$>
                  [first_entry;
                   ("2024-01-02", "example.com", "Third", "https://example.com/c")]
            <-> k ∈ omap (resolved_key page_url)
                      (take MAX_ITEMS_PER_SOURCE
                         (html_candidates (html_parser (text twice_response)))))
      /\ exists today,
          today_iso st0 = (inr today, st0)
          /\ Forall (fun e => e.1.1.1 = today
                              /\ e.1.1.2 = domain_from_url page_url)
                    [first_entry;
                     ("2024-01-02", "example.com", "Third",
                      "https://example.com/c")]).
Proof.
  split; [vm_compute; reflexivity|]. split; [vm_compute; reflexivity|].
  apply (harvest_html_no_repeats page_url twice_response st0 st0).
  vm_compute; reflexivity.
Defined.

(** *** The outlet list: no white space around a URL *)

Lemma rstrip_idemp (s : string) : rstrip (rstrip s) = rstrip s.
Proof.
  induction s as [|a s IH]; [done|]. cbn [rstrip].
  destruct (rstrip s) as [|b r] eqn:Hr.
  - destruct (is_space a) eqn:Ha; [done|]. cbn. by rewrite Ha.
  - change (rstrip (String a (String b r)))
      with (match rstrip (String b r) with
            | "" => if is_space a then "" else String a ""
            | r' => String a r'
            end).
    by rewrite IH.
Qed.

Lemma rstrip_head (a : ascii) (s : string) :
  is_space a = false -> exists r, rstrip (String a s) = String a r.
Proof.
  intros Ha. cbn [rstrip]. destruct (rstrip s); [|by eexists].
  rewrite Ha. by eexists.
Qed.

Lemma lstrip_head (s : string) :
  lstrip s = "" \/ exists a s', lstrip s = String a s' /\ is_space a = false.
Proof.
  induction s as [|a s IH]; [by left|]. cbn [lstrip].
  destruct (is_space a) eqn:Ha; [done|]. right. by exists a, s.
Qed.

Lemma strip_idemp (s : string) : strip (strip s) = strip s.
Proof.
  unfold strip. destruct (lstrip_head s) as [->|(a & s' & -> & Ha)]; [done|].
  destruct (rstrip_head a s' Ha) as [r Hr]. rewrite Hr.
  cbn [lstrip]. rewrite Ha, <- Hr. apply rstrip_idemp.
Qed.

(** Every URL that [read_outlet_urls] returns is free of white space at
    both ends (stripping it again changes nothing) and starts with one of
    the two schemes, however the line was indented or ended in the file. *)
Theorem read_outlet_urls_stripped `{E : Env} (text : string) (st : St) :
  exists urls,
    read_outlet_urls (Some text) st = (inr urls, st)
    /\ Forall (fun url => strip url = url /\ has_http_scheme url = true) urls.
Proof.
  exists (outlet_urls_spec text). split.
  - unfold read_outlet_urls, outlet_urls_spec.
    by rewrite OutletClaims.read_outlet_loop.
  - apply Forall_forall. intros url Hin. unfold outlet_urls_spec in Hin.
    apply list_elem_of_In, filter_In in Hin as [Hin Hhttp].
    apply filter_In in Hin as [Hin _].
    apply list_elem_of_In, list_elem_of_fmap in Hin as (line & -> & _).
    split; [apply strip_idemp|done].
Qed.

End HarvestExtras.

(** ** The command line *)

Module CliExtras.
Import Text TextFacts Csv Harvest HarvestFacts Vocabulary Cli Samples CliSamples.

Section WithEnv.
Context `{E : Env}.
Variable MASTER_CSV : string.

Lemma print_lines (lines : list string) :
  forall st : St, for_each print_step tt lines st = (inr tt, log_infos lines st).
Proof.
  induction lines as [|line lines IH]; intros st.
  - unfold log_infos. rewrite (right_id_L [] (++)). by destruct st.
  - cbn [for_each]. unfold mbind, M_bind, bind, print_step at 1, print.
    rewrite IH. unfold log_infos. cbn. by rewrite <- (assoc_L (++)).
Qed.




End WithEnv.




(** The sample runs, evaluated. *)
Example main_normal_run_sample :
  main master_path normal_args (Some outlets_text) None st0
  = (inr 0,
     {| world := 2;
        stdout := ["[INFO] OUTLETS file: outlets_rss.txt";
                   "[INFO] Writing master CSV: raw/headlines_master.csv";
                   "[INFO] Using outlets file: outlets_rss.txt";
                   "[INFO] https://example.com/feed -> RSS/Atom: 1 entries";
                   "[INFO] Done. Added 1 new headlines."];
        stderr := ["[WARN] Failed to fetch https://down.example/feed: connection refused"] |},
     Some ("2024-01-02,example.com,Story,/story" +:+ CRLF)).
Proof. by vm_compute. Qed.

(** A page with the href //[ among the outlets: the run ends with the
    [ValueError] before the third outlet is fetched, the record of the
    first outlet is not written, and the master CSV is as it was. *)
Example main_normal_run_broken_sample :
  main master_path normal_args (Some outlets_with_broken) (Some plain_row) st0
  = (inl (ValueError "Invalid IPv6 URL"),
     {| world := 2;
        stdout := ["[INFO] OUTLETS file: outlets_rss.txt";
                   "[INFO] Writing master CSV: raw/headlines_master.csv";
                   "[INFO] Using outlets file: outlets_rss.txt";
                   "[INFO] https://example.com/feed -> RSS/Atom: 1 entries"];
        stderr := [] |},
     Some plain_row).
Proof. by vm_compute. Qed.

(** Without the outlet file the run ends with the error of [open]. *)
Example main_normal_run_missing_sample :
  main master_path normal_args None None st0
  = (inl (OSError "outlets_rss.txt"),
     {| world := 0;
        stdout := ["[INFO] OUTLETS file: outlets_rss.txt";
                   "[INFO] Writing master CSV: raw/headlines_master.csv";
                   "[INFO] Using outlets file: outlets_rss.txt"];
        stderr := [] |},
     None).
Proof. by vm_compute. Qed.

End CliExtras.
